(** * tools/extract_chapter.py: chapter extraction from the scenario script

    A shallow embedding of the line-oriented core of [extract_chapter.py]:
    [index_labels], [slice_chapter], [clean_lang_line], [extract_entries],
    [write_output] and the sequencing done by [main].

    Python strings are sequences of Unicode code points; they are modelled
    as lists of code points ([list N]).  Dictionaries are [gmap]s, the set of
    music keywords is a [gset], exceptions are values of [exn] carried by
    [result]. *)

From Stdlib Require Import NArith Ascii String.
From stdpp Require Import base option list sorting gmap.

Abbreviation str := (list N).

(** ASCII literals: [lit] of the Rocq string bgm is the Python string
    ['bgm']. *)
Definition lit (text : string) : str :=
  N_of_ascii <$> list_ascii_of_string text.

(** ** Characters *)

Module Ch.
Local Open Scope N_scope.
Definition tab : N := 9.
Definition newline : N := 10.
Definition space : N := 32.
Definition bang : N := 33.
Definition dquote : N := 34.
Definition star : N := 42.
Definition slash : N := 47.
Definition colon : N := 58.
Definition semicolon : N := 59.
Definition at_sign : N := 64.
Definition backslash : N := 92.
Definition caret : N := 94.
Definition underscore : N := 95.
End Ch.

(** The part of the interpreter's Unicode database the script relies on
    outside the ASCII range.  On ASCII everything below is written out; the
    tables for the other code points belong to the Python runtime, not to the
    repository, and every theorem holds whatever they contain. *)
Class Unicode := {
  (** [ch.isalnum()] for a code point [ch >= 128] *)
  uni_isalnum : N → bool;
  (** [s.lower()] for a string [s] holding a code point [>= 128] *)
  uni_lower : str → str;
}.

(** A runtime whose tables are empty outside ASCII; used to run the model on
    ASCII inputs, where the tables are never consulted. *)
Definition ascii_runtime : Unicode :=
  {| uni_isalnum := λ _, false; uni_lower := λ s, s |}.

Section chars.
Context `{U : Unicode}.
Local Open Scope N_scope.

Definition between (lo hi c : N) : bool := (lo <=? c) && (c <=? hi).

(** [Py_UNICODE_ISSPACE]: what [str.strip()] removes and what [\s] matches
    in a [str] pattern. *)
Definition is_space (c : N) : bool :=
  between 9 13 c || between 28 32 c || (c =? 133) || (c =? 160)
  || (c =? 5760) || between 8192 8202 c || (c =? 8232) || (c =? 8233)
  || (c =? 8239) || (c =? 8287) || (c =? 12288).

Definition is_ascii (c : N) : bool := c <? 128.

Definition ascii_alnum (c : N) : bool :=
  between 48 57 c || between 65 90 c || between 97 122 c.

(** [\w] in a [str] pattern: alphanumeric or underscore. *)
Definition is_word (c : N) : bool :=
  if is_ascii c then ascii_alnum c || (c =? Ch.underscore) else uni_isalnum c.

Definition ascii_lower (c : N) : N :=
  if between 65 90 c then c + 32 else c.

(** [s.lower()] *)
Definition lower (s : str) : str :=
  if forallb is_ascii s then ascii_lower <$> s else uni_lower s.
End chars.

(** ** String primitives *)

Section prims.
Context {A : Type}.

Fixpoint take_while (p : A → bool) (t : list A) : list A :=
  match t with
  | c :: rest => if p c then c :: take_while p rest else []
  | [] => []
  end.

Fixpoint drop_while (p : A → bool) (t : list A) : list A :=
  match t with
  | c :: rest => if p c then drop_while p rest else t
  | [] => []
  end.
End prims.

Definition is_char (k c : N) : bool := N.eqb c k.
Definition not_char (k c : N) : bool := negb (N.eqb c k).

(** [t.startswith(prefix)] *)
Fixpoint startswith (prefix t : str) : bool :=
  match prefix, t with
  | [], _ => true
  | p :: prefix', c :: t' => N.eqb p c && startswith prefix' t'
  | _ :: _, [] => false
  end.

(** [t.lstrip()], [t.rstrip()], [t.strip()] *)
Definition lstrip (t : str) : str := drop_while is_space t.
Definition rstrip (t : str) : str := reverse (drop_while is_space (reverse t)).
Definition strip (t : str) : str := rstrip (lstrip t).

(** [t.lstrip(chars)] *)
Definition lstrip_chars (chars : str) (t : str) : str :=
  drop_while (λ c, existsb (N.eqb c) chars) t.

(** [t.split(' ', 1)[0]]: everything before the first space. *)
Definition split_space_first (t : str) : str := take_while (not_char Ch.space) t.

(** ** Substitution

    [re.sub] and [str.replace] scan the text from left to right; at each
    position the pattern is tried, a match is replaced and the scan resumes
    right after it, otherwise the character is copied.  A [matcher] gets the
    character before the position ([None] at the start of the text) and the
    text from the position on, and returns the length of the match.  No
    pattern of the script matches the empty string. *)

Definition matcher := option N → str → option nat.

Fixpoint sub_from (m : matcher) (repl : str) (skip : nat) (prev : option N)
    (text : str) : str :=
  match text with
  | [] => []
  | c :: rest =>
    match skip with
    | S k => sub_from m repl k (Some c) rest
    | O =>
      match m prev text with
      | Some (S n) => repl ++ sub_from m repl n (Some c) rest
      | _ => c :: sub_from m repl 0 (Some c) rest
      end
    end
  end.

Definition re_sub (m : matcher) (repl text : str) : str :=
  sub_from m repl 0 None text.

(** [old] as a pattern, for [text.replace(old, new)] with a non-empty [old]. *)
Definition literal (old : str) : matcher :=
  λ _ text, if startswith old text then Some (length old) else None.

Definition replace (old new text : str) : str := re_sub (literal old) new text.

(** ** The patterns of the script *)

Section patterns.
Context `{U : Unicode}.

(** [:(?:dwave_eng|dwave_jp|voicedelay|dwave) [^:]*:].  The alternatives
    are tried in order; [[^:]*] is greedy, and giving characters back never
    helps since the character that follows a shorter run is not a colon. *)
Definition voice_keywords : list str :=
  [lit "dwave_eng"; lit "dwave_jp"; lit "voicedelay"; lit "dwave"].

Definition voice_tag_rest (kw : str) (after_colon : str) : option nat :=
  if startswith (kw ++ [Ch.space]) after_colon then
    let tail := drop (length kw + 1) after_colon in
    let payload := take_while (not_char Ch.colon) tail in
    match drop (length payload) tail with
    | c :: _ =>
      if N.eqb c Ch.colon
      then Some (1 + length kw + 1 + length payload + 1)
      else None
    | [] => None
    end
  else None.

Fixpoint voice_tag_alt (kws : list str) (after_colon : str) : option nat :=
  match kws with
  | [] => None
  | kw :: more =>
    match voice_tag_rest kw after_colon with
    | Some n => Some n
    | None => voice_tag_alt more after_colon
    end
  end.

Definition VOICE_TAG_PATTERN : matcher := λ _ text,
  match text with
  | c :: rest => if N.eqb c Ch.colon then voice_tag_alt voice_keywords rest else None
  | [] => None
  end.

(** [!\w+] *)
Definition CONTROL_CODE_PATTERN : matcher := λ _ text,
  match text with
  | c :: rest =>
    if N.eqb c Ch.bang then
      match length (take_while is_word rest) with
      | O => None
      | S n => Some (S (S n))
      end
    else None
  | [] => None
  end.

(** [[ \t]{2,}] *)
Definition blank (c : N) : bool := N.eqb c Ch.space || N.eqb c Ch.tab.

Definition WHITESPACE_RUN_PATTERN : matcher := λ _ text,
  let n := length (take_while blank text) in
  if 2 <=? n then Some n else None.

(** [^\s*:\s*] with [re.MULTILINE]: [^] holds at the start of the text and
    right after a newline. *)
Definition at_line_start (prev : option N) : bool :=
  match prev with
  | None => true
  | Some c => N.eqb c Ch.newline
  end.

Definition line_colon_pattern : matcher := λ prev text,
  if at_line_start prev then
    let lead := take_while is_space text in
    match drop (length lead) text with
    | c :: rest =>
      if N.eqb c Ch.colon
      then Some (length lead + 1 + length (take_while is_space rest))
      else None
    | [] => None
    end
  else None.

(** [\n{3,}] *)
Definition newline_run_pattern : matcher := λ _ text,
  let n := length (take_while (is_char Ch.newline) text) in
  if 3 <=? n then Some n else None.

(** [re.search] for a double quote, one or more characters other than a
    double quote, and a double quote: the group of the leftmost match.  The
    run of characters is greedy and giving characters back never helps. *)
Definition quoted_at (after_quote : str) : option str :=
  let code := take_while (not_char Ch.dquote) after_quote in
  match code, drop (length code) after_quote with
  | _ :: _, c :: _ => if N.eqb c Ch.dquote then Some code else None
  | _, _ => None
  end.

Fixpoint search_quoted (text : str) : option str :=
  match text with
  | [] => None
  | c :: rest =>
    match (if N.eqb c Ch.dquote then quoted_at rest else None) with
    | Some code => Some code
    | None => search_quoted rest
    end
  end.
End patterns.

(** ** clean_lang_line *)

Section cleaner.
Context `{U : Unicode}.

(** [ch == '\n' or ord(ch) >= 32] *)
Definition keeps (ch : N) : bool := N.eqb ch Ch.newline || (32 <=? ch)%N.

(** The body of [clean_lang_line] is cut in two for the proofs.  First half:
    from the removal of the keyword to the removal of the backslashes. *)
Definition after_keyword (content : str) : str :=
  let content := drop (length (lit "langen")) content in
  let content := re_sub VOICE_TAG_PATTERN [] content in
  let content := lstrip_chars [Ch.colon; Ch.space] content in
  let content := if startswith [Ch.caret] content then drop 1 content else content in
  let content := replace [Ch.caret] [] content in
  let content := replace [Ch.at_sign; Ch.slash] [Ch.newline] content in
  let content := replace [Ch.at_sign] [Ch.newline] content in
  replace [Ch.backslash] [] content.

(** Second half: from the removal of the inline hints to the collapse of
    the runs of newlines. *)
Definition after_hints (content : str) : str :=
  let content := re_sub CONTROL_CODE_PATTERN [] content in
  let content :=
    replace [Ch.dquote] [Ch.dquote]
      (replace [Ch.backslash; Ch.dquote] [Ch.dquote] content) in
  let content := re_sub WHITESPACE_RUN_PATTERN [Ch.space] content in
  let content := re_sub line_colon_pattern [] content in
  re_sub newline_run_pattern [Ch.newline; Ch.newline] content.

(** The whole function; the last two steps drop the control characters and
    trim the result. *)
Definition clean_lang_line (raw : str) : str :=
  let content := strip raw in
  if negb (startswith (lit "langen") content) then []
  else
    let content := after_hints (after_keyword content) in
    let content := List.filter keeps content in
    strip content.
End cleaner.

(** ** Data *)

Record SpeakerInfo := {
  speaker_id : str;
  name : option str;
  portrait : option str;
}.

Record ChapterPlan := {
  chapter_id : str;
  title : str;
  episode : str;
  start_label : str;
  end_label : str;
}.

(** The exceptions the script raises, with their argument. *)
Inductive exn :=
  | KeyError (arg : str)
  | ValueError (msg : str)
  | SystemExit (msg : str).

Inductive result (A : Type) :=
  | Ok (value : A)
  | Raise (e : exn).
Arguments Ok {A} value.
Arguments Raise {A} e.

Definition raises {A} (r : result A) : Prop :=
  match r with Raise _ => True | Ok _ => False end.

(** An entry is a dictionary tagged by its [type] key:
    - [Music command raw] is [{type: music, command, raw}];
    - [Dialogue text speaker_id speaker portrait] is
      [{type: dialogue, text, speaker_id}] with the keys [speaker] and
      [portrait] present exactly when the option is [Some];
    - [Narration text] is [{type: narration, text}]. *)
Inductive entry :=
  | Music (command raw : str)
  | Dialogue (text speaker_id : str) (speaker portrait : option str)
  | Narration (text : str).

(** [entry.get('speaker_id')] *)
Definition entry_speaker_id (e : entry) : option str :=
  match e with
  | Dialogue _ sid _ _ => Some sid
  | _ => None
  end.

(** Truth value of an [Optional[str]]: [None] and the empty string are
    false. *)
Definition truthy (s : option str) : bool :=
  match s with
  | Some (_ :: _) => true
  | _ => false
  end.

(** ** index_labels *)

Fixpoint index_labels_from (index : nat) (script_lines : list str)
    (result : gmap str nat) : gmap str nat :=
  match script_lines with
  | [] => result
  | raw_line :: rest =>
    let stripped := strip raw_line in
    let result :=
      if startswith [Ch.star] stripped && (1 <? length stripped)
      then <[drop 1 stripped := index]> result
      else result in
    index_labels_from (S index) rest result
  end.

Definition index_labels (script_lines : list str) : gmap str nat :=
  index_labels_from 0 script_lines ∅.

(** ** slice_chapter *)

(** [lines[lo:hi]] for natural [lo] and [hi]: out-of-range bounds are
    clamped to the length. *)
Definition py_slice {A} (lo hi : nat) (l : list A) : list A :=
  take (hi - lo) (drop lo l).

Definition start_label_missing (label : str) : str :=
  lit "Start label '*" ++ label ++ lit "' not found in script".

Definition end_label_missing (label : str) : str :=
  lit "End label '*" ++ label ++ lit "' not found in script".

Definition start_after_end (chapter : ChapterPlan) : str :=
  lit "Chapter '" ++ chapter_id chapter
  ++ lit "' has start label after end label: "
  ++ start_label chapter ++ lit " >= " ++ end_label chapter.

(** The label table holds positions produced by [enumerate], hence natural
    numbers. *)
Definition slice_chapter (script_lines : list str)
    (label_indices : gmap str nat) (chapter : ChapterPlan) : result (list str) :=
  match label_indices !! start_label chapter with
  | None => Raise (KeyError (start_label_missing (start_label chapter)))
  | Some start =>
    match label_indices !! end_label chapter with
    | None => Raise (KeyError (end_label_missing (end_label chapter)))
    | Some end_ =>
      if end_ <=? start then Raise (ValueError (start_after_end chapter))
      else Ok (py_slice (start + 1) end_ script_lines)
    end
  end.

(** ** extract_entries *)

Section extractor.
Context `{U : Unicode}.

(** [{cmd.lower() for cmd in (music_commands or [])}] *)
Definition music_keywords (music_commands : option (list str)) : gset str :=
  list_to_set (lower <$> default [] music_commands).

(** The value stored under [speaker] or [portrait], if the catalog entry
    exists and the attribute is true. *)
Definition attribute (field : SpeakerInfo → option str)
    (speaker_info : option SpeakerInfo) : option str :=
  match speaker_info with
  | Some info => if truthy (field info) then field info else None
  | None => None
  end.

(** The entry built for a language line with a non-empty text. *)
Definition lang_entry (speaker_map : gmap str SpeakerInfo)
    (current_speaker : option str) (text : str) : entry :=
  match current_speaker with
  | Some (c :: code) =>
    let speaker_info := speaker_map !! (c :: code) in
    Dialogue text (c :: code)
      (attribute name speaker_info) (attribute portrait speaker_info)
  | _ => Narration text
  end.

(** The body of the loop: the speaker after the line and the entry the
    line appends, if any. *)
Definition extract_line (speaker_map : gmap str SpeakerInfo)
    (keywords : gset str) (current_speaker : option str) (raw_line : str)
    : option str * option entry :=
  let stripped := strip raw_line in
  match stripped with
  | [] => (current_speaker, None)
  | _ :: _ =>
    if startswith [Ch.semicolon] stripped then (current_speaker, None)
    else if startswith (lit "advchar") stripped then
      match search_quoted stripped with
      | Some speaker_code =>
        (if bool_decide (speaker_code = lit "-1") then None else Some speaker_code,
         None)
      | None => (current_speaker, None)
      end
    else
      let keyword := lower (split_space_first stripped) in
      if bool_decide (keyword ∈ keywords) then
        (current_speaker, Some (Music keyword stripped))
      else if startswith (lit "langen") stripped then
        match clean_lang_line stripped with
        | [] => (current_speaker, None)
        | text => (current_speaker, Some (lang_entry speaker_map current_speaker text))
        end
      else (current_speaker, None)
  end.

Fixpoint extract_loop (speaker_map : gmap str SpeakerInfo) (keywords : gset str)
    (lines : list str) (current_speaker : option str) (entries : list entry)
    : list entry :=
  match lines with
  | [] => entries
  | raw_line :: rest =>
    let '(speaker, emitted) :=
      extract_line speaker_map keywords current_speaker raw_line in
    extract_loop speaker_map keywords rest speaker (entries ++ option_list emitted)
  end.

Definition extract_entries (lines : list str)
    (speaker_map : gmap str SpeakerInfo) (music_commands : option (list str))
    : list entry :=
  extract_loop speaker_map (music_keywords music_commands) lines None [].

(** The loop again, recording next to each entry the position of the line
    that appended it. *)
Fixpoint extract_trace (speaker_map : gmap str SpeakerInfo) (keywords : gset str)
    (index : nat) (lines : list str) (current_speaker : option str)
    : list (nat * entry) :=
  match lines with
  | [] => []
  | raw_line :: rest =>
    let '(speaker, emitted) :=
      extract_line speaker_map keywords current_speaker raw_line in
    ((λ e, (index, e)) <$> option_list emitted)
    ++ extract_trace speaker_map keywords (S index) rest speaker
  end.
End extractor.

(** ** write_output and main *)

(** The exported document. *)
Record Export := {
  export_chapter : ChapterPlan;
  export_entries : list entry;
  export_speakers : gmap str SpeakerInfo;
}.

(** A path is a directory and a file name in it. *)
Definition path : Type := str * str.

(** What the run leaves behind: the directories it created and the files it
    wrote. *)
Record World := {
  dirs : list str;
  files : list (path * Export);
}.

Definition untouched : World := {| dirs := []; files := [] |}.

(** [{entry.get('speaker_id') for entry in entries if entry.get('speaker_id')}].
    The order in which Python iterates over the set is not specified;
    [elements] stands for it. *)
Definition referenced (entries : list entry) : gset str :=
  list_to_set (omap (λ e, if truthy (entry_speaker_id e) then entry_speaker_id e else None) entries).

(** The dictionary comprehension [{speaker_id: speaker_map[speaker_id] ...}]:
    the first identifier missing from [speaker_map] raises [KeyError]. *)
Fixpoint used_speakers (speaker_map : gmap str SpeakerInfo) (ids : list str)
    : result (gmap str SpeakerInfo) :=
  match ids with
  | [] => Ok ∅
  | sid :: rest =>
    match speaker_map !! sid with
    | None => Raise (KeyError sid)
    | Some info =>
      match used_speakers speaker_map rest with
      | Ok used => Ok (<[sid := info]> used)
      | Raise e => Raise e
      end
    end
  end.

Definition write_output (output_dir : str) (chapter : ChapterPlan)
    (entries : list entry) (speaker_map : gmap str SpeakerInfo) (w : World)
    : result path * World :=
  let w := {| dirs := dirs w ++ [output_dir]; files := files w |} in
  let destination := (output_dir, chapter_id chapter ++ lit ".json") in
  match used_speakers speaker_map (elements (referenced entries)) with
  | Raise e => (Raise e, w)
  | Ok used =>
    let payload :=
      {| export_chapter := chapter; export_entries := entries;
         export_speakers := used |} in
    (Ok destination, {| dirs := dirs w; files := files w ++ [(destination, payload)] |})
  end.

(** [', '.join(parts)] *)
Fixpoint join (sep : str) (parts : list str) : str :=
  match parts with
  | [] => []
  | [part] => part
  | part :: more => part ++ sep ++ join sep more
  end.

Definition find_chapter (plan : list ChapterPlan) (key : str) : result ChapterPlan :=
  match List.find (λ chapter, bool_decide (chapter_id chapter = key)
                              || bool_decide (start_label chapter = key)) plan with
  | Some chapter => Ok chapter
  | None =>
    Raise (KeyError (lit "Unknown chapter '" ++ key ++ lit "'. Available ids: "
                     ++ join (lit ", ") (chapter_id <$> plan)))
  end.

(** The command line and the files it names, once read: [script] is [None]
    when the script file does not exist and otherwise holds its lines;
    [chapters] and [speakers] are what [load_plan] returns. *)
Record Args := {
  chapters : list ChapterPlan;
  speakers : gmap str SpeakerInfo;
  chapter : str;
  output_dir : str;
  script_path : str;
  script : option (list str);
  music_commands : list str;
}.

Section main.
Context `{U : Unicode}.

Definition main (args : Args) (w : World) : result path * World :=
  match script args with
  | None => (Raise (SystemExit (lit "Script file not found: " ++ script_path args)), w)
  | Some script_lines =>
    match find_chapter (chapters args) (chapter args) with
    | Raise e => (Raise e, w)
    | Ok chapter =>
      let label_indices := index_labels script_lines in
      match slice_chapter script_lines label_indices chapter with
      | Raise e => (Raise e, w)
      | Ok segment =>
        let entries :=
          extract_entries segment (speakers args) (Some (music_commands args)) in
        write_output (output_dir args) chapter entries (speakers args) w
      end
    end
  end.
End main.

(** The default of [--music-commands]. *)
Definition default_music_commands : list str :=
  [lit "bgm"; lit "bgmplay"; lit "bgmstop"; lit "meplay"; lit "meplay2"; lit "bgmfade"].

(** ** Notions used by the statements *)

(** A label definition: the trimmed line begins with the marker, is longer
    than one character, and the label is what follows the marker. *)
Definition defines_label (raw_line label : str) : Prop :=
  startswith [Ch.star] (strip raw_line) = true
  ∧ 1 < length (strip raw_line)
  ∧ drop 1 (strip raw_line) = label.

#[global] Instance defines_label_dec raw_line label :
  Decision (defines_label raw_line label).
Proof. unfold defines_label. apply _. Defined.

(** Position of the last line of [script_lines] that defines [label]. *)
Fixpoint last_definition (label : str) (script_lines : list str) : option nat :=
  match script_lines with
  | [] => None
  | raw_line :: rest =>
    match last_definition label rest with
    | Some j => Some (S j)
    | None => if decide (defines_label raw_line label) then Some 0 else None
    end
  end.

(** [adjacent R t]: some character of [t] and the one right after it are
    related by [R]. *)
Fixpoint adjacent (R : N → N → bool) (t : str) : bool :=
  match t with
  | a :: rest =>
    match rest with
    | b :: _ => R a b || adjacent R rest
    | [] => false
    end
  | [] => false
  end.

(** [x] may come before any character. *)
Definition may_precede (R : N → N → bool) (x : N) : Prop := ∀ y, R x y = false.

(** [a] may come before and after any character. *)
Definition neutral (R : N → N → bool) (a : N) : Prop :=
  ∀ x, R x a = false ∧ R a x = false.

Section notions.
Context `{U : Unicode}.

(** An exclamation mark followed by a word character. *)
Definition hint_pair (a b : N) : bool := N.eqb a Ch.bang && is_word b.

(** The text holds an inline directive: an exclamation mark followed by one
    or more word characters. *)
Definition has_hint (t : str) : bool := adjacent hint_pair t.

(** A control character: below 32 and not a newline. *)
Definition is_control (c : N) : bool := (c <? 32)%N && negb (N.eqb c Ch.newline).

(** The text holds a control character. *)
Definition has_control (t : str) : bool := existsb is_control t.

(** What the specification promises of a cleaned line. *)
Definition plain (t : str) : Prop :=
  has_hint t = false
  ∧ (Ch.backslash ∉ t)
  ∧ has_control t = false.

(** The first whitespace-delimited token of a trimmed line, as the
    specification words the music rule. *)
Definition first_whitespace_token (stripped : str) : str :=
  take_while (λ c, negb (is_space c)) stripped.
End notions.

Section run.
Context `{U : Unicode}.

(** The speaker held by the loop once it has gone through [lines], starting
    from [current_speaker]. *)
Definition speaker_after (speaker_map : gmap str SpeakerInfo) (keywords : gset str)
    (lines : list str) (current_speaker : option str) : option str :=
  foldl (λ speaker raw_line, (extract_line speaker_map keywords speaker raw_line).1)
    current_speaker lines.
End run.

(** ** Sample inputs *)

Definition quoted (code : str) : str := [Ch.dquote] ++ code ++ [Ch.dquote].

(** The line [advchar] followed by the quoted code beato. *)
Definition line_advchar_beato : str := lit "advchar " ++ quoted (lit "beato").
Definition line_good_evening : str := lit "langen Good evening.".
Definition line_hello_world : str := lit "langen:dwave_eng v01:^Hello@/World!sd".
Definition line_bgm : str := lit "bgm theme01".
(** [bgm], a tab, [theme01] *)
Definition line_bgm_tab : str := lit "bgm" ++ [Ch.tab] ++ lit "theme01".
(** [langen Hello!], a tab, [sd] *)
Definition line_hello_tab : str := lit "langen Hello!" ++ [Ch.tab] ++ lit "sd".

Definition sample_plan : ChapterPlan :=
  {| chapter_id := lit "ep1"; title := lit "Opening"; episode := lit "1";
     start_label := lit "s"; end_label := lit "e" |}.

Definition sample_script : list str :=
  [lit "*s"; line_advchar_beato; line_good_evening; lit "*e"].

(** A run whose catalog has no speaker at all. *)
Definition sample_args : Args :=
  {| chapters := [sample_plan]; speakers := ∅; chapter := lit "ep1";
     output_dir := lit "build"; script_path := lit "0.utf";
     script := Some sample_script; music_commands := default_music_commands |}.

(** A script whose sixth line defines the label [s], and a chapter that
    starts and ends at that label. *)
Definition looped_script : list str := replicate 5 (lit "; filler") ++ [lit "*s"].

Definition looped_plan : ChapterPlan :=
  {| chapter_id := lit "ep1"; title := lit "Opening"; episode := lit "1";
     start_label := lit "s"; end_label := lit "s" |}.

Definition looped_args : Args :=
  {| chapters := [looped_plan]; speakers := ∅; chapter := lit "ep1";
     output_dir := lit "build"; script_path := lit "0.utf";
     script := Some looped_script; music_commands := default_music_commands |}.

(** ** load_plan

    [load_plan] reads the catalog file and decodes it with [json.loads];
    what follows starts from the decoded document.  The dictionaries of a
    chapter and of a speaker hold strings, as their annotations say. *)

(** [data[key]] *)
Definition getitem (data : gmap str str) (key : str) : result str :=
  match data !! key with
  | Some value => Ok value
  | None => Raise (KeyError key)
  end.

(** [ChapterPlan.from_dict(data)]: the five subscripts are evaluated in the
    order of the keyword arguments. *)
Definition ChapterPlan_from_dict (data : gmap str str) : result ChapterPlan :=
  match getitem data (lit "id") with
  | Raise e => Raise e
  | Ok id =>
    match getitem data (lit "title") with
    | Raise e => Raise e
    | Ok title =>
      match getitem data (lit "episode") with
      | Raise e => Raise e
      | Ok episode =>
        match getitem data (lit "start_label") with
        | Raise e => Raise e
        | Ok start_label =>
          match getitem data (lit "end_label") with
          | Raise e => Raise e
          | Ok end_label =>
            Ok {| chapter_id := id; title := title; episode := episode;
                  start_label := start_label; end_label := end_label |}
          end
        end
      end
    end
  end.

(** [SpeakerInfo.from_dict(speaker_id, data)] *)
Definition SpeakerInfo_from_dict (sid : str) (data : gmap str str) : SpeakerInfo :=
  {| speaker_id := sid; name := data !! lit "name";
     portrait := data !! lit "portrait" |}.

(** The decoded catalog: the values under [chapters] and [speakers], [None]
    when the key is absent. *)
Record Payload := {
  payload_chapters : option (list (gmap str str));
  payload_speakers : option (gmap str (gmap str str));
}.

(** [[ChapterPlan.from_dict(item) for item in items]] *)
Fixpoint chapters_from_items (items : list (gmap str str)) : result (list ChapterPlan) :=
  match items with
  | [] => Ok []
  | item :: more =>
    match ChapterPlan_from_dict item with
    | Raise e => Raise e
    | Ok plan =>
      match chapters_from_items more with
      | Raise e => Raise e
      | Ok plans => Ok (plan :: plans)
      end
    end
  end.

Definition load_plan (payload : Payload)
    : result (list ChapterPlan * gmap str SpeakerInfo) :=
  match chapters_from_items (default [] (payload_chapters payload)) with
  | Raise e => Raise e
  | Ok plans =>
    Ok (plans,
        map_imap (λ sid info, Some (SpeakerInfo_from_dict sid info))
          (default ∅ (payload_speakers payload)))
  end.

(** The five keys a chapter must have, in the order they are read. *)
Definition required_keys : list str :=
  [lit "id"; lit "title"; lit "episode"; lit "start_label"; lit "end_label"].

(** ** Further notions used by the statements *)

(** A line the loop of [extract_entries] skips at once: blank, or a
    comment. *)
Definition skipped (raw_line : str) : bool :=
  match strip raw_line with
  | [] => true
  | stripped => startswith [Ch.semicolon] stripped
  end.

(** A speaker the loop can hold: none, or a code that is not empty, holds no
    double quote and is not the sentinel. *)
Definition valid_speaker (speaker : option str) : Prop :=
  match speaker with
  | None => True
  | Some code => code ≠ [] ∧ (Ch.dquote ∉ code) ∧ code ≠ lit "-1"
  end.

(** [needle] occurs in [text]. *)
Definition occurs_in (needle text : str) : Prop :=
  ∃ before after, text = before ++ needle ++ after.

(** A chapter answers to [key]: by its identifier or by its start label. *)
Definition answers_to (key : str) (plan : ChapterPlan) : Prop :=
  chapter_id plan = key ∨ start_label plan = key.

(** The text of an entry, for the entries that have one. *)
Definition entry_text (e : entry) : option str :=
  match e with
  | Dialogue text _ _ _ => Some text
  | Narration text => Some text
  | Music _ _ => None
  end.

Section soundness.
Context `{U : Unicode}.

(** The text of the entry, if it has one, is the non-empty cleaned text of
    one of the [lines]; it is trimmed and holds no backslash and no control
    character. *)
Definition text_sound (lines : list str) (e : entry) : Prop :=
  match entry_text e with
  | Some text =>
    text ≠ [] ∧ strip text = text ∧ (Ch.backslash ∉ text)
    ∧ has_control text = false
    ∧ ∃ raw_line, raw_line ∈ lines ∧ text = clean_lang_line raw_line
  | None => True
  end.

(** The speaker of a Dialogue entry is a valid code quoted on a
    speaker-change line among the [lines], and the name and the portrait
    are the true attributes of its catalog entry, if there is one. *)
Definition dialogue_sound (speaker_map : gmap str SpeakerInfo) (lines : list str)
    (e : entry) : Prop :=
  match e with
  | Dialogue _ sid speaker picture =>
    valid_speaker (Some sid)
    ∧ (∃ raw_line, raw_line ∈ lines
         ∧ startswith (lit "advchar") (strip raw_line) = true
         ∧ search_quoted (strip raw_line) = Some sid)
    ∧ speaker = attribute name (speaker_map !! sid)
    ∧ picture = attribute portrait (speaker_map !! sid)
  | _ => True
  end.

(** The command of a Music entry is a keyword and the lowercase form of the
    first space-delimited token of its raw line, which is one of the
    [lines], trimmed, and neither empty nor a comment. *)
Definition music_sound (keywords : gset str) (lines : list str) (e : entry) : Prop :=
  match e with
  | Music command raw =>
    command ∈ keywords
    ∧ command = lower (split_space_first raw)
    ∧ raw ≠ [] ∧ startswith [Ch.semicolon] raw = false
    ∧ ∃ raw_line, raw_line ∈ lines ∧ raw = strip raw_line
  | _ => True
  end.
End soundness.

Definition is_dialogue (e : entry) : bool :=
  match e with
  | Dialogue _ _ _ _ => true
  | _ => false
  end.

Definition is_music (e : entry) : bool :=
  match e with
  | Music _ _ => true
  | _ => false
  end.

(** Sample catalogs. *)
Definition second_plan : ChapterPlan :=
  {| chapter_id := lit "ep2"; title := lit "Second"; episode := lit "2";
     start_label := lit "e"; end_label := lit "f" |}.

Definition beato_info : SpeakerInfo :=
  {| speaker_id := lit "beato"; name := Some (lit "Beatrice"); portrait := None |}.

Definition sample_item : gmap str str :=
  {[ lit "id" := lit "ep1"; lit "title" := lit "Opening"; lit "episode" := lit "1";
     lit "start_label" := lit "s"; lit "end_label" := lit "e" ]}.

Definition sample_payload : Payload :=
  {| payload_chapters := Some [sample_item];
     payload_speakers := Some {[ lit "beato" := {[ lit "name" := lit "Beatrice" ]} ]} |}.


(** * Label Indexer *)

Lemma last_definition_Some label script_lines i :
  last_definition label script_lines = Some i ↔
    (∃ raw_line, script_lines !! i = Some raw_line ∧ defines_label raw_line label)
    ∧ (∀ j raw_line, i < j → script_lines !! j = Some raw_line →
         ¬ defines_label raw_line label).
Proof.
  revert i. induction script_lines as [|raw rest IH]; intros i; simpl.
  - split; [done | intros [[? [? _]] _]; done].
  - destruct (last_definition label rest) as [j|] eqn:Hrest.
    + split.
      * intros [= <-]. destruct (IH j) as [[Hdef Hlast] _]; [done|].
        split; [done|]. intros [|k] raw' Hlt Hk; [lia|].
        apply (Hlast k); [lia | done].
      * intros [[raw' [Hi Hdef]] Hlast]. destruct i as [|i].
        -- destruct (IH j) as [[[rj [Hj Hdj]] _] _]; [done|].
           exfalso. apply (Hlast (S j) rj); [lia | done | done].
        -- f_equal. f_equal. apply (inj Some). apply IH. split; [eauto|].
           intros k rk Hlt Hk. apply (Hlast (S k) rk); [lia | done].
    + assert (Hnone : ∀ k rk, rest !! k = Some rk → ¬ defines_label rk label).
      { intros k rk Hk Hd.
        assert (∃ m, last_definition label rest = Some m) as [m Hm];
          [|congruence].
        clear Hrest IH. revert k Hk.
        induction rest as [|r rest' IHr]; intros k Hk; [done|]. simpl.
        destruct k as [|k]; simpl in Hk.
        - injection Hk as ->. destruct (last_definition label rest'); [eauto|].
          rewrite decide_True by done. eauto.
        - destruct (IHr k Hk) as [m ->]. eauto. }
      destruct (decide (defines_label raw label)) as [Hd|Hd]; split.
      * intros [= <-]. split; [eauto|].
        intros [|k] rk Hlt Hk; [lia|]. by apply (Hnone k).
      * intros [[raw' [Hi Hdef]] _]. destruct i as [|i]; [done|].
        exfalso. by apply (Hnone i raw').
      * done.
      * intros [[raw' [Hi Hdef]] _]. destruct i as [|i].
        -- simpl in Hi. by injection Hi as ->.
        -- exfalso. by apply (Hnone i raw').
Qed.

Lemma last_definition_None label script_lines :
  last_definition label script_lines = None ↔
    ∀ j raw_line, script_lines !! j = Some raw_line → ¬ defines_label raw_line label.
Proof.
  split.
  - intros Hnone j raw Hj Hd.
    induction script_lines as [|r rest IH] in j, Hj, Hnone |- *; [done|].
    simpl in Hnone. destruct (last_definition label rest) eqn:E; [done|].
    destruct (decide (defines_label r label)) as [|Hn]; [done|].
    destruct j as [|j]; simpl in Hj.
    + by injection Hj as ->.
    + by apply (IH eq_refl j).
  - intros Hall. destruct (last_definition label script_lines) as [i|] eqn:E; [|done].
    apply last_definition_Some in E as [[raw [Hi Hd]] _].
    by destruct (Hall i raw).
Qed.

Lemma index_labels_from_lookup script_lines index result label :
  index_labels_from index script_lines result !! label =
    match last_definition label script_lines with
    | Some j => Some (index + j)
    | None => result !! label
    end.
Proof.
  revert index result.
  induction script_lines as [|raw rest IH]; intros index result;
    cbn [index_labels_from last_definition]; [done|].
  rewrite IH. destruct (last_definition label rest) as [j|].
  { f_equal. lia. }
  destruct (decide (defines_label raw label)) as [(Hs & Hl & Heq)|Hn].
  - rewrite Hs. apply Nat.ltb_lt in Hl. rewrite Hl. simpl.
    rewrite Heq, lookup_insert_eq. f_equal. lia.
  - destruct (startswith [Ch.star] (strip raw)) eqn:Hs; simpl; [|done].
    destruct (1 <? length (strip raw)) eqn:Hl; [|done].
    apply Nat.ltb_lt in Hl. rewrite lookup_insert_ne; [done|].
    intros Heq. apply Hn. done.
Qed.

(** C3: the label table maps a name to an index exactly when the line at
    that index defines the name (trimmed content beginning with the marker,
    longer than one character, name = remainder) and no later line defines
    it; a name is in the table exactly when some line defines it. *)
Theorem index_labels_last_definition (script_lines : list str) (label : str) :
  (∀ i, index_labels script_lines !! label = Some i ↔
     (∃ raw_line, script_lines !! i = Some raw_line ∧ defines_label raw_line label)
     ∧ (∀ j raw_line, i < j → script_lines !! j = Some raw_line →
          ¬ defines_label raw_line label))
  ∧ (is_Some (index_labels script_lines !! label) ↔
       ∃ i raw_line, script_lines !! i = Some raw_line ∧ defines_label raw_line label).
Proof.
  unfold index_labels. split.
  - intros i. rewrite index_labels_from_lookup, <- last_definition_Some.
    destruct (last_definition label script_lines); simpl; [done|].
    rewrite lookup_empty. done.
  - rewrite index_labels_from_lookup.
    destruct (last_definition label script_lines) as [j|] eqn:E.
    + split; [intros _|eauto].
      apply last_definition_Some in E as [[raw [? ?]] _]. eauto.
    + rewrite lookup_empty. split; [intros [? ?]; done|].
      intros (i & raw & Hi & Hd).
      by destruct (proj1 (last_definition_None _ _) E i raw).
Qed.

(** * Chapter Slicer *)

Lemma py_slice_lookup {A} (lo hi : nat) (l : list A) (k : nat) (x : A) :
  py_slice lo hi l !! k = Some x ↔ lo + k < hi ∧ l !! (lo + k) = Some x.
Proof.
  unfold py_slice. destruct (decide (k < hi - lo)) as [Hlt|Hge].
  - rewrite lookup_take_lt, lookup_drop by done. split; [|tauto].
    intros ?. split; [lia | done].
  - rewrite lookup_take_ge by lia. split; [done|]. intros [? _]. lia.
Qed.

Lemma start_label_missing_inj a b :
  start_label_missing a = start_label_missing b → a = b.
Proof.
  unfold start_label_missing. intros H.
  apply app_inv_head in H. by apply app_inv_tail in H.
Qed.

Lemma end_label_missing_inj a b :
  end_label_missing a = end_label_missing b → a = b.
Proof.
  unfold end_label_missing. intros H.
  apply app_inv_head in H. by apply app_inv_tail in H.
Qed.

Lemma start_end_messages_differ a b :
  start_label_missing a ≠ end_label_missing b.
Proof. unfold start_label_missing, end_label_missing. intros H. by vm_compute in H. Qed.

Section slicer.
Context `{U : Unicode}.

(** C4: [slice_chapter] raises exactly when the start label is missing (a
    [KeyError] naming it as the start label), the end label is missing (a
    [KeyError] naming it as the end label), or the start index is not below
    the end index (a [ValueError]); the two messages name their label and
    never coincide; and when it raises, [main] stops with that exception
    having created no directory and written no file. *)
Theorem slice_chapter_raises_iff (script_lines : list str)
    (label_indices : gmap str nat) (plan : ChapterPlan) :
  (∀ e, slice_chapter script_lines label_indices plan = Raise e ↔
     (label_indices !! start_label plan = None
      ∧ e = KeyError (start_label_missing (start_label plan)))
     ∨ (is_Some (label_indices !! start_label plan)
        ∧ label_indices !! end_label plan = None
        ∧ e = KeyError (end_label_missing (end_label plan)))
     ∨ (∃ start end_,
          label_indices !! start_label plan = Some start
          ∧ label_indices !! end_label plan = Some end_
          ∧ (end_ ≤ start)
          ∧ e = ValueError (start_after_end plan)))
  ∧ (raises (slice_chapter script_lines label_indices plan) ↔
       label_indices !! start_label plan = None
       ∨ label_indices !! end_label plan = None
       ∨ (∃ start end_,
            label_indices !! start_label plan = Some start
            ∧ label_indices !! end_label plan = Some end_
            ∧ (end_ ≤ start)))
  ∧ (∀ a b, start_label_missing a ≠ end_label_missing b)
  ∧ (∀ a b, start_label_missing a = start_label_missing b → a = b)
  ∧ (∀ a b, end_label_missing a = end_label_missing b → a = b)
  ∧ (∀ args w e,
       script args = Some script_lines →
       find_chapter (chapters args) (chapter args) = Ok plan →
       slice_chapter script_lines (index_labels script_lines) plan = Raise e →
       main args w = (Raise e, w)).
Proof.
  repeat split.
  - unfold slice_chapter.
    destruct (label_indices !! start_label plan) as [start|] eqn:Hs.
    + destruct (label_indices !! end_label plan) as [end_|] eqn:He.
      * destruct (end_ <=? start) eqn:Hle.
        -- intros [= <-]. right. right. exists start, end_.
           apply Nat.leb_le in Hle. repeat split; [lia].
        -- done.
      * intros [= <-]. right. left. eauto.
    + intros [= <-]. by left.
  - unfold slice_chapter.
    intros [[Hs ->]|[([start Hs] & He & ->)|(start & end_ & Hs & He & Hge & ->)]].
    + by rewrite Hs.
    + by rewrite Hs, He.
    + rewrite Hs, He. assert ((end_ <=? start) = true) as -> by (apply Nat.leb_le; lia).
      done.
  - unfold slice_chapter, raises.
    destruct (label_indices !! start_label plan) as [start|] eqn:Hs; [|by left].
    destruct (label_indices !! end_label plan) as [end_|] eqn:He; [|by (right; left)].
    destruct (end_ <=? start) eqn:Hle; [|done].
    intros _. right. right. exists start, end_. apply Nat.leb_le in Hle.
    repeat split; lia.
  - unfold slice_chapter, raises.
    intros [Hs|[He|(start & end_ & Hs & He & Hge)]].
    + by rewrite Hs.
    + rewrite He. by destruct (label_indices !! start_label plan).
    + rewrite Hs, He. assert ((end_ <=? start) = true) as -> by (apply Nat.leb_le; lia).
      done.
  - apply start_end_messages_differ.
  - apply start_label_missing_inj.
  - apply end_label_missing_inj.
  - intros args w e Hscript Hfind Hslice. unfold main.
    by rewrite Hscript, Hfind, Hslice.
Qed.
End slicer.

(** C5: when both labels resolve and the start index is below the end index,
    [slice_chapter] returns the lines at the positions strictly between the
    two indices, in order, and nothing else. *)
Theorem slice_chapter_between (script_lines : list str)
    (label_indices : gmap str nat) (plan : ChapterPlan) (start end_ : nat) :
  label_indices !! start_label plan = Some start →
  label_indices !! end_label plan = Some end_ →
  start < end_ →
  ∃ segment,
    slice_chapter script_lines label_indices plan = Ok segment
    ∧ segment = take (end_ - start - 1) (drop (S start) script_lines)
    ∧ ∀ k line,
        segment !! k = Some line ↔
          ∃ i, i = start + 1 + k ∧ (start < i) ∧ (i < end_)
               ∧ script_lines !! i = Some line.
Proof.
  intros Hs He Hlt. unfold slice_chapter. rewrite Hs, He.
  assert ((end_ <=? start) = false) as -> by (apply Nat.leb_gt; lia).
  eexists. split; [done|]. split.
  - unfold py_slice. f_equal; [lia|]. f_equal. lia.
  - intros k line. rewrite py_slice_lookup. split.
    + intros [? ?]. exists (start + 1 + k). repeat split; [lia | lia | done].
    + intros (i & -> & ? & ? & ?). split; [lia | done].
Qed.

(** * Entry Extractor *)

Lemma startswith_app (prefix rest : str) : startswith prefix (prefix ++ rest) = true.
Proof.
  induction prefix as [|p prefix IH]; simpl; [done|].
  by rewrite N.eqb_refl, IH.
Qed.

Lemma startswith_inv (prefix t : str) :
  startswith prefix t = true → ∃ rest, t = prefix ++ rest.
Proof.
  revert t. induction prefix as [|p prefix IH]; intros t; simpl.
  - eauto.
  - destruct t as [|c t]; [done|]. intros [Hc Hp]%andb_prop.
    apply N.eqb_eq in Hc as ->. destruct (IH _ Hp) as [rest ->]. eauto.
Qed.

Lemma take_while_app_stop {A} (p : A → bool) (run : list A) (c : A) (rest : list A) :
  Forall (λ x, p x = true) run → p c = false →
  take_while p (run ++ c :: rest) = run.
Proof.
  intros Hrun Hc. induction Hrun as [|x run Hx _ IH]; simpl.
  - by rewrite Hc.
  - by rewrite Hx, IH.
Qed.

Lemma not_char_Forall (k : N) (t : str) :
  k ∉ t → Forall (λ x, not_char k x = true) t.
Proof.
  intros Hk. apply Forall_forall. intros x Hx. unfold not_char.
  apply negb_true_iff, N.eqb_neq. intros ->. done.
Qed.

Section extractor_facts.
Context `{U : Unicode}.

Lemma quoted_at_code (code rest : str) :
  code ≠ [] → Ch.dquote ∉ code →
  quoted_at (code ++ Ch.dquote :: rest) = Some code.
Proof.
  intros Hne Hq. unfold quoted_at.
  rewrite (take_while_app_stop _ code); [|by apply not_char_Forall|done].
  destruct code as [|n l]; [done|].
  rewrite (drop_app_length (n :: l)). done.
Qed.

(** The pattern finds the first quoted code of a line. *)
Lemma search_quoted_first (before code rest : str) :
  Ch.dquote ∉ before → code ≠ [] → Ch.dquote ∉ code →
  search_quoted (before ++ quoted code ++ rest) = Some code.
Proof.
  intros Hb Hne Hq. induction before as [|b before IH]; simpl.
  - unfold quoted. simpl. rewrite <- app_assoc. simpl.
    by rewrite quoted_at_code.
  - apply not_elem_of_cons in Hb as [Hb Hbefore].
    destruct (N.eqb b Ch.dquote) eqn:E; [by apply N.eqb_eq in E|].
    by apply IH.
Qed.

(** A line without any double quote has no quoted code. *)
Lemma search_quoted_none (text : str) :
  Ch.dquote ∉ text → search_quoted text = None.
Proof.
  induction text as [|c text IH]; [done|]. intros [Hc Ht]%not_elem_of_cons.
  simpl. destruct (N.eqb c Ch.dquote) eqn:E; [by apply N.eqb_eq in E|].
  by apply IH.
Qed.

Lemma elem_of_music_keywords (keyword : str) (commands : list str) :
  keyword ∈ music_keywords (Some commands) ↔
    ∃ cmd, cmd ∈ commands ∧ keyword = lower cmd.
Proof.
  unfold music_keywords. simpl. rewrite elem_of_list_to_set, list_elem_of_fmap.
  split; intros (cmd & ? & ?); eauto.
Qed.

Lemma advchar_not_comment (stripped : str) :
  startswith (lit "advchar") stripped = true →
  stripped ≠ [] ∧ startswith [Ch.semicolon] stripped = false.
Proof. intros [rest ->]%startswith_inv. done. Qed.

Lemma langen_not_special (stripped : str) :
  startswith (lit "langen") stripped = true →
  stripped ≠ [] ∧ startswith [Ch.semicolon] stripped = false
  ∧ startswith (lit "advchar") stripped = false.
Proof. intros [rest ->]%startswith_inv. done. Qed.

(** The four outcomes of a line, one lemma per branch of the loop body. *)
Lemma extract_line_advchar speaker_map keywords prior raw_line code :
  startswith (lit "advchar") (strip raw_line) = true →
  search_quoted (strip raw_line) = Some code →
  extract_line speaker_map keywords prior raw_line =
    (if bool_decide (code = lit "-1") then None else Some code, None).
Proof.
  intros Hadv Hcode. destruct (advchar_not_comment _ Hadv) as [Hne Hsemi].
  unfold extract_line. destruct (strip raw_line) as [|c rest] eqn:E; [done|].
  by rewrite Hsemi, Hadv, Hcode.
Qed.

Lemma extract_line_advchar_unmatched speaker_map keywords prior raw_line :
  startswith (lit "advchar") (strip raw_line) = true →
  search_quoted (strip raw_line) = None →
  extract_line speaker_map keywords prior raw_line = (prior, None).
Proof.
  intros Hadv Hcode. destruct (advchar_not_comment _ Hadv) as [Hne Hsemi].
  unfold extract_line. destruct (strip raw_line) as [|c rest] eqn:E; [done|].
  by rewrite Hsemi, Hadv, Hcode.
Qed.

Lemma extract_line_music speaker_map keywords prior raw_line :
  strip raw_line ≠ [] →
  startswith [Ch.semicolon] (strip raw_line) = false →
  startswith (lit "advchar") (strip raw_line) = false →
  lower (split_space_first (strip raw_line)) ∈ keywords →
  extract_line speaker_map keywords prior raw_line =
    (prior, Some (Music (lower (split_space_first (strip raw_line))) (strip raw_line))).
Proof.
  intros Hne Hsemi Hadv Hkw. unfold extract_line.
  destruct (strip raw_line) as [|c rest] eqn:E; [done|].
  by rewrite Hsemi, Hadv, bool_decide_eq_true_2.
Qed.

Lemma extract_line_langen speaker_map keywords prior raw_line :
  startswith (lit "langen") (strip raw_line) = true →
  lower (split_space_first (strip raw_line)) ∉ keywords →
  clean_lang_line (strip raw_line) ≠ [] →
  extract_line speaker_map keywords prior raw_line =
    (prior, Some (lang_entry speaker_map prior (clean_lang_line (strip raw_line)))).
Proof.
  intros Hlang Hkw Htext. destruct (langen_not_special _ Hlang) as (Hne & Hsemi & Hadv).
  unfold extract_line. destruct (strip raw_line) as [|c rest] eqn:E; [done|].
  rewrite Hsemi, Hadv, bool_decide_eq_false_2, Hlang by done.
  by destruct (clean_lang_line (c :: rest)).
Qed.
End extractor_facts.

Section extractor_claims.
Context `{U : Unicode}.

(** C6 as amended: a speaker-change line whose quoted code is the sentinel
    leaves no current speaker whatever the speaker was, any other quoted code
    becomes the current speaker, and neither appends an entry; the quoted
    code is the first quoted, non-empty run of the line; a later language
    line whose first space-delimited token is not a music keyword, whose
    cleaned text is not empty, met with a current speaker, appends a
    Dialogue entry carrying that speaker; and on the two lines of the
    example, under the default music commands, the entries are one Dialogue
    entry of speaker beato. *)
Theorem speaker_change_and_dialogue (speaker_map : gmap str SpeakerInfo)
    (keywords : gset str) :
  (∀ prior raw_line,
     startswith (lit "advchar") (strip raw_line) = true →
     search_quoted (strip raw_line) = Some (lit "-1") →
     extract_line speaker_map keywords prior raw_line = (None, None))
  ∧ (∀ prior raw_line code,
       startswith (lit "advchar") (strip raw_line) = true →
       search_quoted (strip raw_line) = Some code →
       code ≠ lit "-1" →
       extract_line speaker_map keywords prior raw_line = (Some code, None))
  ∧ (∀ before code rest,
       Ch.dquote ∉ before → code ≠ [] → Ch.dquote ∉ code →
       search_quoted (before ++ quoted code ++ rest) = Some code)
  ∧ (∀ code raw_line,
       code ≠ [] →
       startswith (lit "langen") (strip raw_line) = true →
       lower (split_space_first (strip raw_line)) ∉ keywords →
       clean_lang_line (strip raw_line) ≠ [] →
       extract_line speaker_map keywords (Some code) raw_line =
         (Some code,
          Some (Dialogue (clean_lang_line (strip raw_line)) code
                  (attribute name (speaker_map !! code))
                  (attribute portrait (speaker_map !! code)))))
  ∧ extract_entries [line_advchar_beato; line_good_evening] speaker_map
      (Some default_music_commands) =
      [Dialogue (lit "Good evening.") (lit "beato")
         (attribute name (speaker_map !! lit "beato"))
         (attribute portrait (speaker_map !! lit "beato"))].
Proof.
  split; [|split; [|split; [|split]]].
  - intros prior raw_line Hadv Hcode.
    by rewrite (extract_line_advchar _ _ _ _ _ Hadv Hcode).
  - intros prior raw_line code Hadv Hcode Hne.
    rewrite (extract_line_advchar _ _ _ _ _ Hadv Hcode).
    by rewrite bool_decide_eq_false_2.
  - apply search_quoted_first.
  - intros code raw_line Hne Hlang Hkw Htext.
    rewrite extract_line_langen by done. by destruct code.
  - unfold extract_entries. cbn [extract_loop].
    rewrite (extract_line_advchar _ _ _ _ (lit "beato")); [|by vm_compute..].
    rewrite bool_decide_eq_false_2 by (by vm_compute).
    rewrite extract_line_langen; [done|by vm_compute| |by vm_compute].
    rewrite elem_of_music_keywords. intros (cmd & Hcmd & Heq).
    repeat (apply elem_of_cons in Hcmd as [->|Hcmd]; [by vm_compute in Heq|]).
    by apply elem_of_nil in Hcmd.
Qed.
End extractor_claims.

(** Witness of C6: the sentinel after a speaker, a speaker change, and the
    language line of the example. *)
Lemma speaker_change_and_dialogue_witness :
  @extract_line ascii_runtime ∅ ∅ (Some (lit "kinzo"))
     (lit "advchar " ++ quoted (lit "-1")) = (None, None)
  ∧ @extract_line ascii_runtime ∅ ∅ (Some (lit "kinzo")) line_advchar_beato =
      (Some (lit "beato"), None)
  ∧ @extract_line ascii_runtime ∅ ∅ (Some (lit "beato")) line_good_evening =
      (Some (lit "beato"),
       Some (Dialogue (lit "Good evening.") (lit "beato") None None)).
Proof.
  split; [|split].
  - apply (proj1 (@speaker_change_and_dialogue ascii_runtime ∅ ∅));
      vm_compute; reflexivity.
  - apply (proj1 (proj2 (@speaker_change_and_dialogue ascii_runtime ∅ ∅)));
      [vm_compute; reflexivity | vm_compute; reflexivity | ].
    intros H; vm_compute in H; discriminate H.
  - etrans.
    + apply (proj1 (proj2 (proj2 (proj2
               (@speaker_change_and_dialogue ascii_runtime ∅ ∅))))
               (lit "beato") line_good_evening).
      * intros H; vm_compute in H; discriminate H.
      * vm_compute; reflexivity.
      * apply (bool_decide_eq_false_1 (_ ∈ (∅ : gset str))).
        vm_compute; reflexivity.
      * intros H; vm_compute in H; discriminate H.
    + vm_compute; reflexivity.
Defined.

(** Counterexample to C6 as stated: with [langen] among the music commands,
    the language line of the example has a non-empty cleaned text and meets
    the current speaker beato, yet the entry appended for it is a Music
    entry, not a Dialogue entry. *)
Lemma langen_music_keyword_counterexample :
  (∀ U : Unicode,
     startswith (lit "langen") (strip line_good_evening) = true
     ∧ clean_lang_line line_good_evening = lit "Good evening."
     ∧ speaker_after ∅ (music_keywords (Some [lit "langen"]))
         [line_advchar_beato] None = Some (lit "beato")
     ∧ extract_entries [line_advchar_beato; line_good_evening] ∅
         (Some [lit "langen"]) = [Music (lit "langen") line_good_evening])
  ∧ (∀ text sid speaker picture,
       Music (lit "langen") line_good_evening ≠ Dialogue text sid speaker picture).
Proof.
  split; [intros U; repeat split; vm_compute; reflexivity | done].
Qed.

Section examples.
Context `{U : Unicode}.

(** C7: the cleaned text of the sample line is Hello, a newline, World; and
    extracting the line alone, with no current speaker, gives exactly one
    entry, a Narration entry with that text, under the function's own default
    (no music commands) and under the default music commands of the command
    line, whatever the catalog. *)
Theorem hello_world_narration (speaker_map : gmap str SpeakerInfo) :
  clean_lang_line line_hello_world = lit "Hello" ++ [Ch.newline] ++ lit "World"
  ∧ extract_entries [line_hello_world] speaker_map None =
      [Narration (lit "Hello" ++ [Ch.newline] ++ lit "World")]
  ∧ extract_entries [line_hello_world] speaker_map (Some default_music_commands) =
      [Narration (lit "Hello" ++ [Ch.newline] ++ lit "World")].
Proof. repeat split; vm_compute; reflexivity. Qed.

(** C8 as amended: a line that is not blank, not a comment and not a
    speaker-change line, and whose first space-delimited token (what comes
    before the first space of the trimmed line) has the lowercase form of
    one of the configured commands, appends a Music entry whose command is
    the lowercased token and whose raw field is the trimmed line, and leaves
    the current speaker as it was. *)
Theorem music_line_entry (speaker_map : gmap str SpeakerInfo)
    (commands : list str) (prior : option str) (raw_line cmd : str) :
  strip raw_line ≠ [] →
  startswith [Ch.semicolon] (strip raw_line) = false →
  startswith (lit "advchar") (strip raw_line) = false →
  cmd ∈ commands →
  lower (split_space_first (strip raw_line)) = lower cmd →
  extract_line speaker_map (music_keywords (Some commands)) prior raw_line =
    (prior,
     Some (Music (lower (split_space_first (strip raw_line))) (strip raw_line))).
Proof.
  intros Hne Hsemi Hadv Hcmd Hlow. apply extract_line_music; [done..|].
  apply elem_of_music_keywords. eauto.
Qed.

(** C10 as amended: a speaker-change line on which no quoted code is found
    raises nothing, appends no entry and leaves the current speaker as it
    was. *)
Theorem unmatched_advchar_keeps_speaker (speaker_map : gmap str SpeakerInfo)
    (keywords : gset str) (prior : option str) (raw_line : str) :
  startswith (lit "advchar") (strip raw_line) = true →
  search_quoted (strip raw_line) = None →
  extract_line speaker_map keywords prior raw_line = (prior, None)
  ∧ ∀ rest entries,
      extract_loop speaker_map keywords (raw_line :: rest) prior entries =
      extract_loop speaker_map keywords rest prior entries.
Proof.
  intros Hadv Hnone.
  pose proof (extract_line_advchar_unmatched speaker_map keywords prior _ Hadv Hnone) as H.
  split; [done|]. intros rest entries. cbn [extract_loop]. rewrite H. simpl.
  by rewrite app_nil_r.
Qed.
End examples.

(** Witness of C8: the line of the example with the command in upper case. *)
Lemma music_line_entry_witness :
  @extract_line ascii_runtime ∅ (@music_keywords ascii_runtime (Some [lit "BGM"]))
     (Some (lit "beato")) line_bgm =
    (Some (lit "beato"), Some (Music (lit "bgm") (lit "bgm theme01"))).
Proof.
  etrans.
  - apply (@music_line_entry ascii_runtime ∅ [lit "BGM"] (Some (lit "beato"))
             line_bgm (lit "BGM")).
    + intros H; vm_compute in H; discriminate H.
    + vm_compute; reflexivity.
    + vm_compute; reflexivity.
    + apply (bool_decide_eq_true_1 (_ ∈ (_ : list str))).
      vm_compute; reflexivity.
    + vm_compute; reflexivity.
  - vm_compute; reflexivity.
Defined.

(** Counterexample to C8 as stated: the first whitespace-delimited token of
    [bgm], tab, [theme01] is [bgm], a configured music command, and the line
    is neither blank nor a comment nor a speaker change; the script splits on
    the space character only, finds no music keyword and appends nothing. *)
Lemma tab_separated_music_counterexample :
  (∀ U : Unicode,
     strip line_bgm_tab = line_bgm_tab
     ∧ startswith [Ch.semicolon] (strip line_bgm_tab) = false
     ∧ startswith (lit "advchar") (strip line_bgm_tab) = false
     ∧ lower (first_whitespace_token (strip line_bgm_tab)) = lit "bgm"
     ∧ lit "bgm" ∈ music_keywords (Some [lit "bgm"])
     ∧ extract_line ∅ (music_keywords (Some [lit "bgm"])) None line_bgm_tab =
         (None, None)
     ∧ extract_entries [line_bgm_tab] ∅ (Some [lit "bgm"]) = [])
  ∧ (None : option entry) ≠ Some (Music (lit "bgm") line_bgm_tab).
Proof.
  split; [|done]. intros U.
  repeat split; vm_compute; reflexivity.
Qed.

(** Witness of C10: [advchar] alone, met with the speaker beato. *)
Lemma unmatched_advchar_keeps_speaker_witness :
  @extract_line ascii_runtime ∅ ∅ (Some (lit "beato")) (lit "advchar") =
    (Some (lit "beato"), None).
Proof.
  apply (proj1 (@unmatched_advchar_keeps_speaker ascii_runtime ∅ ∅
                  (Some (lit "beato")) (lit "advchar")
                  ltac:(vm_compute; reflexivity) ltac:(vm_compute; reflexivity))).
Defined.

(** Counterexample to C10 as stated: after the speaker beato, [advchar]
    without a quoted code leaves beato as the current speaker, and the next
    language line is a Dialogue entry of beato, not a Narration entry. *)
Lemma unmatched_advchar_counterexample :
  (∀ U : Unicode,
     startswith (lit "advchar") (strip (lit "advchar")) = true
     ∧ search_quoted (strip (lit "advchar")) = None
     ∧ extract_line ∅ ∅ (Some (lit "beato")) (lit "advchar") =
         (Some (lit "beato"), None)
     ∧ extract_entries [line_advchar_beato; lit "advchar"; line_good_evening] ∅ None =
         [Dialogue (lit "Good evening.") (lit "beato") None None])
  ∧ Some (lit "beato") ≠ (None : option str).
Proof.
  split; [intros U; repeat split; vm_compute; reflexivity | done].
Qed.

(** * Order of the entries *)

Section order.
Context `{U : Unicode}.
Context (speaker_map : gmap str SpeakerInfo) (keywords : gset str).

Lemma extract_loop_trace (lines : list str) (speaker : option str)
    (entries : list entry) (index : nat) :
  extract_loop speaker_map keywords lines speaker entries =
    entries ++ (extract_trace speaker_map keywords index lines speaker).*2.
Proof.
  revert speaker entries index.
  induction lines as [|raw rest IH]; intros speaker entries index;
    cbn [extract_loop extract_trace].
  - by rewrite app_nil_r.
  - destruct (extract_line speaker_map keywords speaker raw) as [next emitted].
    rewrite (IH _ _ (S index)), fmap_app, app_assoc. f_equal. f_equal.
    by destruct emitted.
Qed.

Lemma speaker_after_cons (raw_line : str) (rest : list str) (speaker : option str) :
  speaker_after speaker_map keywords (raw_line :: rest) speaker =
    speaker_after speaker_map keywords rest
      (extract_line speaker_map keywords speaker raw_line).1.
Proof. done. Qed.

Lemma extract_trace_app (before after : list str) (speaker : option str)
    (index : nat) :
  extract_trace speaker_map keywords index (before ++ after) speaker =
    extract_trace speaker_map keywords index before speaker
    ++ extract_trace speaker_map keywords (index + length before) after
         (speaker_after speaker_map keywords before speaker).
Proof.
  revert speaker index.
  induction before as [|raw rest IH]; intros speaker index.
  - cbn [app extract_trace length]. by rewrite Nat.add_0_r.
  - rewrite speaker_after_cons. cbn [app extract_trace length].
    destruct (extract_line speaker_map keywords speaker raw) as [next emitted].
    rewrite IH, <- app_assoc. cbn [fst]. do 3 f_equal. lia.
Qed.

Lemma extract_trace_elem (lines : list str) (speaker : option str)
    (index i : nat) (e : entry) :
  (i, e) ∈ extract_trace speaker_map keywords index lines speaker ↔
    ∃ j raw_line,
      i = index + j ∧ lines !! j = Some raw_line
      ∧ (extract_line speaker_map keywords
           (speaker_after speaker_map keywords (take j lines) speaker) raw_line).2
        = Some e.
Proof.
  revert speaker index.
  induction lines as [|raw rest IH]; intros speaker index; cbn [extract_trace].
  - rewrite elem_of_nil. split; [done|]. by intros (j & r & _ & ? & _).
  - destruct (extract_line speaker_map keywords speaker raw) as [next emitted] eqn:E.
    rewrite elem_of_app, IH. split.
    + intros [Hhere|(j & r & -> & Hj & He)].
      * exists 0, raw. destruct emitted as [e'|]; cbn in Hhere.
        -- apply list_elem_of_singleton in Hhere as [= -> ->].
           rewrite Nat.add_0_r. cbn [take lookup list_lookup].
           split; [done|]. split; [done|].
           change (speaker_after speaker_map keywords [] speaker) with speaker.
           by rewrite E.
        -- by apply elem_of_nil in Hhere.
      * exists (S j), r. split; [lia|]. split; [done|].
        cbn [take]. rewrite speaker_after_cons, E. done.
    + intros ([|j] & r & -> & Hj & He).
      * left. cbn in Hj. injection Hj as <-.
        change (speaker_after speaker_map keywords (take 0 (raw :: rest)) speaker)
          with speaker in He.
        rewrite E in He. cbn in He. subst emitted. cbn.
        rewrite Nat.add_0_r. by apply list_elem_of_singleton.
      * right. exists j, r. split; [lia|]. split; [done|].
        cbn [take] in He. by rewrite speaker_after_cons, E in He.
Qed.

Lemma extract_trace_sorted (lines : list str) (speaker : option str) (index : nat) :
  StronglySorted lt (extract_trace speaker_map keywords index lines speaker).*1
  ∧ Forall (λ i, index ≤ i) (extract_trace speaker_map keywords index lines speaker).*1.
Proof.
  revert speaker index.
  induction lines as [|raw rest IH]; intros speaker index; cbn [extract_trace].
  - split; constructor.
  - destruct (extract_line speaker_map keywords speaker raw) as [next emitted].
    destruct (IH next (S index)) as [Hsorted Hbound].
    assert (Forall (λ i, index ≤ i)
              (extract_trace speaker_map keywords (S index) rest next).*1) as Hweak.
    { eapply Forall_impl; [exact Hbound|]. simpl. lia. }
    destruct emitted as [e|]; simpl; [|done]. split.
    + constructor; [done|]. eapply Forall_impl; [exact Hbound|]. simpl. lia.
    + by constructor.
Qed.
End order.

Section order_claim.
Context `{U : Unicode}.

(** C9: tag every entry with the position of the line that appended it.
    The entries of [extract_entries] are exactly the tagged entries in the
    same order; the positions increase strictly along the entries; an entry
    is tagged with a position exactly when the line at that position, met
    with the speaker left by the lines before it, appends that entry; and
    the entries of a sequence of lines stay, unchanged and in place, at the
    front of the entries of any longer sequence. *)
Theorem entries_follow_line_order (lines : list str)
    (speaker_map : gmap str SpeakerInfo) (music_commands : option (list str)) :
  (extract_trace speaker_map (music_keywords music_commands) 0 lines None).*2
    = extract_entries lines speaker_map music_commands
  ∧ StronglySorted lt
      (extract_trace speaker_map (music_keywords music_commands) 0 lines None).*1
  ∧ (∀ i e,
       (i, e) ∈ extract_trace speaker_map (music_keywords music_commands) 0 lines None ↔
         ∃ raw_line,
           lines !! i = Some raw_line
           ∧ (extract_line speaker_map (music_keywords music_commands)
                (speaker_after speaker_map (music_keywords music_commands)
                   (take i lines) None) raw_line).2 = Some e)
  ∧ (∀ more,
       extract_entries lines speaker_map music_commands
         `prefix_of` extract_entries (lines ++ more) speaker_map music_commands).
Proof.
  split; [|split; [|split]].
  - unfold extract_entries. by rewrite (extract_loop_trace _ _ _ _ _ 0).
  - apply extract_trace_sorted.
  - intros i e. rewrite extract_trace_elem. split.
    + intros (j & r & -> & ? & ?). eauto.
    + intros (r & ? & ?). exists i, r. done.
  - intros more. unfold extract_entries.
    rewrite !(extract_loop_trace _ _ _ _ _ 0), extract_trace_app, fmap_app.
    simpl. by apply prefix_app_r.
Qed.
End order_claim.

(** * Line Cleaner *)

(** ** Scanning primitives *)

Lemma drop_take_while {A} (p : A → bool) (t : list A) :
  drop (length (take_while p t)) t = drop_while p t.
Proof.
  induction t as [|c t IH]; simpl; [done|]. by destruct (p c).
Qed.

Lemma drop_while_suffix {A} (p : A → bool) (t : list A) :
  ∃ before, t = before ++ drop_while p t.
Proof.
  induction t as [|c t [before IH]]; simpl.
  - by exists [].
  - destruct (p c); [|by exists []]. exists (c :: before). simpl. by f_equal.
Qed.

Lemma drop_while_head {A} (p : A → bool) (t : list A) :
  match drop_while p t with
  | c :: _ => p c = false
  | [] => True
  end.
Proof.
  induction t as [|c t IH]; simpl; [done|]. by destruct (p c) eqn:E.
Qed.

(** The trimmed text is a segment of the text. *)
Lemma strip_segment (t : str) : ∃ before after, t = before ++ strip t ++ after.
Proof.
  unfold strip, rstrip, lstrip.
  destruct (drop_while_suffix is_space t) as [before Ht].
  destruct (drop_while_suffix is_space (reverse (drop_while is_space t)))
    as [after Hr].
  exists before, (reverse after). rewrite Ht at 1. f_equal.
  rewrite <- (reverse_involutive (drop_while is_space t)) at 1.
  rewrite Hr at 1. by rewrite reverse_app.
Qed.

Lemma Forall_strip (P : N → Prop) (t : str) : Forall P t → Forall P (strip t).
Proof.
  destruct (strip_segment t) as (before & after & Ht). rewrite Ht at 1.
  intros [_ [H _]%Forall_app]%Forall_app. done.
Qed.

Lemma Forall_drop_while {A} (P : A → Prop) (p : A → bool) (t : list A) :
  Forall P t → Forall P (drop_while p t).
Proof.
  destruct (drop_while_suffix p t) as [before Ht]. rewrite Ht at 1.
  by intros [_ H]%Forall_app.
Qed.

Lemma Forall_list_filter {A} (P : A → Prop) (f : A → bool) (t : list A) :
  Forall P t → Forall P (List.filter f t).
Proof.
  induction 1 as [|c t Hc _ IH]; simpl; [done|].
  destruct (f c); [by constructor | done].
Qed.

Lemma list_filter_holds {A} (f : A → bool) (t : list A) :
  Forall (λ c, f c = true) (List.filter f t).
Proof.
  induction t as [|c t IH]; simpl; [done|].
  destruct (f c) eqn:E; [by constructor | done].
Qed.

Lemma list_filter_id {A} (f : A → bool) (t : list A) :
  Forall (λ c, f c = true) t → List.filter f t = t.
Proof.
  induction 1 as [|c t Hc _ IH]; simpl; [done|]. by rewrite Hc, IH.
Qed.

(** ** Substitution keeps what holds of every character *)

Lemma sub_from_Forall (P : N → Prop) (m : matcher) (repl : str) (skip : nat)
    (prev : option N) (text : str) :
  Forall P repl → Forall P text → Forall P (sub_from m repl skip prev text).
Proof.
  intros Hrepl Htext. revert skip prev.
  induction Htext as [|c rest Hc _ IH]; intros skip prev; simpl; [done|].
  destruct skip as [|k]; [|done].
  destruct (m prev (c :: rest)) as [[|n]|].
  - by constructor.
  - by apply Forall_app.
  - by constructor.
Qed.

Lemma re_sub_Forall (P : N → Prop) (m : matcher) (repl text : str) :
  Forall P repl → Forall P text → Forall P (re_sub m repl text).
Proof. apply sub_from_Forall. Qed.

(** Removing a character by [replace] leaves none of it. *)
Lemma sub_from_literal_removed (k : N) (skip : nat) (prev : option N) (text : str) :
  k ∉ sub_from (literal [k]) [] skip prev text.
Proof.
  revert skip prev. induction text as [|c rest IH]; intros skip prev; simpl.
  - apply not_elem_of_nil.
  - destruct skip as [|n]; [|done]. unfold literal at 1. simpl.
    destruct (N.eqb k c) eqn:E; simpl; [done|].
    apply not_elem_of_cons. split; [|done]. by apply N.eqb_neq in E.
Qed.

(** ** Adjacent characters *)

Section adjacency.
Context (R : N → N → bool).

Lemma adjacent_tail (x : N) (t : str) :
  adjacent R (x :: t) = false → adjacent R t = false.
Proof. destruct t as [|y t]; simpl; [done|]. by intros [_ ?]%orb_false_elim. Qed.

Lemma adjacent_app_false (t1 t2 : str) :
  adjacent R (t1 ++ t2) = false → adjacent R t1 = false ∧ adjacent R t2 = false.
Proof.
  induction t1 as [|a t1 IH]; [done|]. intros H.
  destruct (IH (adjacent_tail _ _ H)) as [H1 H2]. split; [|done].
  destruct t1 as [|b t1]; [done|]. simpl in H |- *.
  apply orb_false_elim in H as [-> _]. done.
Qed.

Lemma adjacent_cons_neutral (a : N) (t : str) :
  neutral R a → adjacent R t = false → adjacent R (a :: t) = false.
Proof.
  intros Ha Ht. destruct t as [|y t]; [done|].
  cbn [adjacent] in *. by rewrite (proj2 (Ha y)), Ht.
Qed.

Lemma adjacent_app_neutral (repl t : str) :
  Forall (neutral R) repl → adjacent R t = false → adjacent R (repl ++ t) = false.
Proof.
  induction 1 as [|a repl Ha _ IH]; intros Ht; simpl; [done|].
  apply adjacent_cons_neutral; auto.
Qed.

Lemma adjacent_before_neutral (x : N) (repl t : str) :
  Forall (neutral R) repl → repl ≠ [] → adjacent R t = false →
  adjacent R (x :: repl ++ t) = false.
Proof.
  intros Hrepl Hne Ht. destruct Hrepl as [|a repl Ha Hrepl]; [done|].
  pose proof (adjacent_app_neutral (a :: repl) t ltac:(by constructor) Ht) as H.
  simpl in H |- *. by rewrite (proj1 (Ha x)).
Qed.

Lemma adjacent_may_precede (x : N) (t : str) :
  may_precede R x → adjacent R t = false → adjacent R (x :: t) = false.
Proof.
  intros Hx Ht. destruct t as [|y t]; [done|]. cbn [adjacent] in *.
  by rewrite Hx, Ht.
Qed.

(** A substitution creates no related pair when the replacement is made of
    neutral characters and matches with an empty replacement only happen
    after a character that may precede anything. *)
Lemma sub_from_adjacent (m : matcher) (repl : str) :
  Forall (neutral R) repl →
  (∀ prev text n, m prev text = Some (S n) →
     repl ≠ [] ∨ match prev with Some q => may_precede R q | None => True end) →
  ∀ text x skip prev,
    adjacent R text = false →
    may_precede R x ∨ (skip = 0 ∧ prev = Some x ∧ adjacent R (x :: text) = false) →
    adjacent R (x :: sub_from m repl skip prev text) = false.
Proof.
  intros Hrepl Hm. induction text as [|c rest IH]; intros x skip prev Ht Hx.
  - done.
  - pose proof (adjacent_tail _ _ Ht) as Hrest. cbn [sub_from].
    destruct skip as [|k].
    + destruct (m prev (c :: rest)) as [[|n]|] eqn:E.
      * assert (adjacent R (x :: c :: rest) = false) as Hxc.
        { destruct Hx as [Hx|(_ & _ & Hx)]; [by apply adjacent_may_precede|done]. }
        cbn [adjacent] in Hxc |- *. apply orb_false_elim in Hxc as [-> _]. simpl.
        apply (IH c 0 (Some c)); [done|]. right. done.
      * destruct (decide (repl = [])) as [->|Hne].
        -- simpl. apply IH; [done|]. left.
           destruct (Hm _ _ _ E) as [?|Hprev]; [done|].
           destruct Hx as [Hx|(_ & -> & _)]; done.
        -- apply adjacent_before_neutral; [done..|].
           destruct Hrepl as [|a repl Ha _]; [done|].
           apply (adjacent_tail a). apply IH; [done|]. left. intros y. apply Ha.
      * assert (adjacent R (x :: c :: rest) = false) as Hxc.
        { destruct Hx as [Hx|(_ & _ & Hx)]; [by apply adjacent_may_precede|done]. }
        cbn [adjacent] in Hxc |- *. apply orb_false_elim in Hxc as [-> _]. simpl.
        apply (IH c 0 (Some c)); [done|]. right. done.
    + apply IH; [done|]. left. destruct Hx as [Hx|(? & _)]; [done|lia].
Qed.

Lemma re_sub_adjacent (m : matcher) (repl text : str) (x : N) :
  may_precede R x →
  Forall (neutral R) repl →
  (∀ prev text n, m prev text = Some (S n) →
     repl ≠ [] ∨ match prev with Some q => may_precede R q | None => True end) →
  adjacent R text = false →
  adjacent R (re_sub m repl text) = false.
Proof.
  intros Hx Hrepl Hm Ht. apply (adjacent_tail x).
  apply sub_from_adjacent; auto.
Qed.
End adjacency.

(** ** The steps of the cleaner *)

Section cleaner_facts.
Context `{U : Unicode}.

Lemma keeps_not_control (c : N) : keeps c = negb (is_control c).
Proof.
  unfold keeps, is_control. destruct (N.eqb c Ch.newline); simpl.
  - by rewrite andb_false_r.
  - rewrite andb_true_r. rewrite N.leb_antisym. done.
Qed.

Lemma has_control_false (t : str) :
  has_control t = false ↔ Forall (λ c, keeps c = true) t.
Proof.
  unfold has_control. induction t as [|c t IH]; simpl.
  - split; [constructor | done].
  - rewrite orb_false_iff, IH, Forall_cons, keeps_not_control, negb_true_iff. done.
Qed.

(** Right after the hints are removed, no exclamation mark is followed by a
    word character: the run of word characters of a match is greedy, so the
    character left after it is not a word character. *)
Lemma hints_removed_from (text : str) (x : N) (skip : nat) (prev : option N) :
  x ≠ Ch.bang
  ∨ match drop skip text with c :: _ => is_word c = false | [] => True end →
  adjacent hint_pair (x :: sub_from CONTROL_CODE_PATTERN [] skip prev text) = false.
Proof.
  revert x skip prev. induction text as [|c rest IH]; intros x skip prev Hx.
  - done.
  - cbn [sub_from]. destruct skip as [|k]; [|by apply IH].
    assert (hint_pair x c = false) as Hxc.
    { unfold hint_pair. destruct Hx as [Hx|Hx].
      - apply N.eqb_neq in Hx. by rewrite Hx.
      - simpl in Hx. rewrite Hx. apply andb_false_r. }
    unfold CONTROL_CODE_PATTERN at 1.
    destruct (N.eqb c Ch.bang) eqn:Ec.
    + destruct (length (take_while is_word rest)) as [|n] eqn:En.
      * cbn [adjacent]. rewrite Hxc. simpl. apply IH. right.
        destruct rest as [|w rest']; [done|]. simpl in En |- *.
        by destruct (is_word w).
      * simpl. apply IH. rewrite <- En, drop_take_while. right.
        apply drop_while_head.
    + cbn [adjacent]. rewrite Hxc. simpl. apply IH. left.
      by apply N.eqb_neq.
Qed.

Lemma hints_removed (text : str) :
  has_hint (re_sub CONTROL_CODE_PATTERN [] text) = false.
Proof.
  apply (adjacent_tail _ Ch.newline). apply hints_removed_from. by left.
Qed.

Lemma newline_may_precede : may_precede hint_pair Ch.newline.
Proof. intros y. done. Qed.

Lemma neutral_space : neutral hint_pair Ch.space.
Proof. intros x. split; [unfold hint_pair; apply andb_false_r | done]. Qed.

Lemma neutral_newline : neutral hint_pair Ch.newline.
Proof. intros x. split; [unfold hint_pair; apply andb_false_r | done]. Qed.

Lemma neutral_dquote : neutral hint_pair Ch.dquote.
Proof. intros x. split; [unfold hint_pair; apply andb_false_r | done]. Qed.

Lemma line_colon_after_newline (prev : option N) (text : str) (n : nat) :
  line_colon_pattern prev text = Some (S n) →
  match prev with Some q => may_precede hint_pair q | None => True end.
Proof.
  unfold line_colon_pattern. destruct prev as [q|]; [|done]. simpl.
  destruct (N.eqb q Ch.newline) eqn:E; [|done].
  apply N.eqb_eq in E as ->. intros _. apply newline_may_precede.
Qed.

(** The steps after the removal of hints bring no hint back. *)
Lemma after_hints_no_hint (content : str) : has_hint (after_hints content) = false.
Proof.
  unfold after_hints, replace, has_hint.
  apply (re_sub_adjacent _ _ _ _ Ch.newline newline_may_precede).
  { repeat constructor; apply neutral_newline. }
  { intros. by left. }
  apply (re_sub_adjacent _ _ _ _ Ch.newline newline_may_precede).
  { constructor. }
  { intros prev text n H. right. by apply (line_colon_after_newline _ text n). }
  apply (re_sub_adjacent _ _ _ _ Ch.newline newline_may_precede).
  { repeat constructor; apply neutral_space. }
  { intros. by left. }
  apply (re_sub_adjacent _ _ _ _ Ch.newline newline_may_precede).
  { repeat constructor; apply neutral_dquote. }
  { intros. by left. }
  apply (re_sub_adjacent _ _ _ _ Ch.newline newline_may_precede).
  { repeat constructor; apply neutral_dquote. }
  { intros. by left. }
  apply hints_removed.
Qed.

Lemma after_hints_Forall (P : N → Prop) (content : str) :
  P Ch.newline → P Ch.space → P Ch.dquote →
  Forall P content → Forall P (after_hints content).
Proof.
  intros Hn Hs Hq Hc. unfold after_hints, replace.
  repeat (apply re_sub_Forall; [by repeat constructor|]). done.
Qed.

Lemma after_keyword_Forall (P : N → Prop) (content : str) :
  P Ch.newline → Forall P content → Forall P (after_keyword content).
Proof.
  intros Hn Hc. unfold after_keyword, replace, lstrip_chars.
  repeat (apply re_sub_Forall; [by repeat constructor|]).
  match goal with |- Forall P (if ?b then _ else _) => destruct b end;
    [apply Forall_drop|]; apply Forall_drop_while;
    (apply re_sub_Forall; [by constructor|]); by apply Forall_drop.
Qed.

Lemma after_keyword_no_backslash (content : str) :
  Ch.backslash ∉ after_keyword content.
Proof. unfold after_keyword, replace, re_sub. apply sub_from_literal_removed. Qed.

Lemma not_elem_of_Forall (k : N) (t : str) : k ∉ t ↔ Forall (λ c, c ≠ k) t.
Proof.
  rewrite Forall_forall. split.
  - intros Hk c Hc ->. done.
  - intros H Hk. by apply (H k).
Qed.
End cleaner_facts.

Section cleaner_claim.
Context `{U : Unicode}.

(** C2 as amended: for any input the cleaner returns a string, possibly
    empty, that holds no backslash and no control character (below 32, other
    than newline); when the input itself holds no control character, the
    result holds no exclamation mark followed by a word character either. *)
Theorem clean_lang_line_plain (raw : str) :
  (Ch.backslash ∉ clean_lang_line raw)
  ∧ has_control (clean_lang_line raw) = false
  ∧ (has_control raw = false → plain (clean_lang_line raw)).
Proof.
  assert (Ch.backslash ∉ clean_lang_line raw) as Hback.
  { unfold clean_lang_line.
    destruct (startswith (lit "langen") (strip raw)); simpl; [|apply not_elem_of_nil].
    apply not_elem_of_Forall, Forall_strip, Forall_list_filter.
    apply after_hints_Forall; [done..|].
    apply not_elem_of_Forall, after_keyword_no_backslash. }
  assert (has_control (clean_lang_line raw) = false) as Hctrl.
  { unfold clean_lang_line.
    destruct (startswith (lit "langen") (strip raw)); simpl; [|done].
    apply has_control_false, Forall_strip, list_filter_holds. }
  split; [done|]. split; [done|].
  intros Hraw. split; [|done].
  unfold clean_lang_line.
  destruct (startswith (lit "langen") (strip raw)); simpl; [|done].
  rewrite list_filter_id.
  - destruct (strip_segment (after_hints (after_keyword (strip raw))))
      as (before & after & Hseg).
    pose proof (after_hints_no_hint (after_keyword (strip raw))) as Hh.
    rewrite Hseg in Hh. unfold has_hint in *.
    apply adjacent_app_false in Hh as [_ Hh].
    by apply adjacent_app_false in Hh as [Hh _].
  - apply after_hints_Forall; [done..|].
    apply after_keyword_Forall; [done|].
    by apply Forall_strip, has_control_false.
Qed.
End cleaner_claim.

(** Witness of C2: the sample line holds no control character. *)
Lemma clean_lang_line_plain_witness :
  @plain ascii_runtime (@clean_lang_line ascii_runtime line_hello_world).
Proof.
  apply (proj2 (proj2 (@clean_lang_line_plain ascii_runtime line_hello_world))).
  vm_compute; reflexivity.
Defined.

(** Counterexample to C2 as stated: in [langen Hello!], tab, [sd] the tab
    keeps the pattern of hints from matching and is dropped afterwards with
    the control characters, so the cleaned text is the non-empty [Hello!sd],
    where the exclamation mark is followed by word characters. *)
Lemma tab_after_bang_counterexample :
  (∀ U : Unicode,
     clean_lang_line line_hello_tab = lit "Hello!sd"
     ∧ has_hint (lit "Hello!sd") = true
     ∧ ¬ plain (clean_lang_line line_hello_tab))
  ∧ lit "Hello!sd" ≠ [].
Proof.
  split; [|done]. intros U. split; [vm_compute; reflexivity|].
  split; [vm_compute; reflexivity|]. intros [H _]. by vm_compute in H.
Qed.

(** * Export *)

Lemma used_speakers_missing (speaker_map : gmap str SpeakerInfo) (ids : list str)
    (sid : str) :
  sid ∈ ids → speaker_map !! sid = None →
  ∃ k, k ∈ ids ∧ speaker_map !! k = None
       ∧ used_speakers speaker_map ids = Raise (KeyError k).
Proof.
  induction ids as [|i ids IH]; intros Hin Hnone.
  - by apply elem_of_nil in Hin.
  - simpl. destruct (speaker_map !! i) as [info|] eqn:Hi.
    + apply elem_of_cons in Hin as [->|Hin]; [congruence|].
      destruct (IH Hin Hnone) as (k & Hk & Hkn & ->).
      exists k. rewrite elem_of_cons. auto.
    + exists i. rewrite elem_of_cons. auto.
Qed.


(** An entry that refers to a speaker missing from the catalog makes
    [write_output] raise [KeyError] before anything is written. *)
Lemma write_output_missing_speaker (output_dir : str) (plan : ChapterPlan)
    (entries : list entry) (speaker_map : gmap str SpeakerInfo) (w : World)
    (text sid : str) (speaker picture : option str) :
  Dialogue text sid speaker picture ∈ entries → sid ≠ [] →
  speaker_map !! sid = None →
  ∃ k, speaker_map !! k = None
       ∧ (write_output output_dir plan entries speaker_map w).1 = Raise (KeyError k)
       ∧ files (write_output output_dir plan entries speaker_map w).2 = files w.
Proof.
  intros Hin Hne Hnone. unfold write_output.
  destruct (used_speakers_missing speaker_map (elements (referenced entries)) sid)
    as (k & _ & Hk & ->); [|done|by exists k].
  apply elem_of_elements. unfold referenced. apply elem_of_list_to_set.
  apply list_elem_of_omap. eexists. split; [exact Hin|].
  simpl. by destruct sid.
Qed.

Section export_claim.
Context `{U : Unicode}.

(** C1, evaluated where the code departs from it: with an empty catalog, the
    speaker beato and one language line, [extract_entries] emits the Dialogue
    entry with the speaker identifier and without name or portrait, and
    [main] then stops in [write_output] with [KeyError] for beato, having
    created the output directory and written no file. *)
Theorem missing_speaker_aborts_export :
  extract_entries [line_advchar_beato; line_good_evening] ∅
    (Some default_music_commands) =
    [Dialogue (lit "Good evening.") (lit "beato") None None]
  ∧ main sample_args untouched =
      (Raise (KeyError (lit "beato")), {| dirs := [lit "build"]; files := [] |}).
Proof. split; vm_compute; reflexivity. Qed.
End export_claim.

(** * Sample runs of the slicer *)

(** Witness of C4: a chapter whose two labels resolve to the same index 5
    raises [ValueError], and [main] stops there with nothing created. *)
Lemma slice_chapter_raises_iff_witness :
  slice_chapter looped_script (index_labels looped_script) looped_plan =
    Raise (ValueError (start_after_end looped_plan))
  ∧ @main ascii_runtime looped_args untouched =
      (Raise (ValueError (start_after_end looped_plan)), untouched).
Proof.
  pose proof (@slice_chapter_raises_iff ascii_runtime looped_script
                (index_labels looped_script) looped_plan) as (Hiff & _ & _ & _ & _ & Hmain).
  assert (slice_chapter looped_script (index_labels looped_script) looped_plan =
            Raise (ValueError (start_after_end looped_plan))) as Hraise.
  { apply Hiff. right. right. exists 5, 5.
    split; [vm_compute; reflexivity|]. split; [vm_compute; reflexivity|].
    split; [lia | reflexivity]. }
  split; [exact Hraise|].
  apply Hmain; [reflexivity | vm_compute; reflexivity | exact Hraise].
Defined.

(** Witness of C5: the two lines between the labels of the sample script. *)
Lemma slice_chapter_between_witness :
  ∃ segment,
    slice_chapter sample_script (index_labels sample_script) sample_plan = Ok segment
    ∧ segment = take (3 - 0 - 1) (drop 1 sample_script)
    ∧ ∀ k line,
        segment !! k = Some line ↔
          ∃ i, i = 0 + 1 + k ∧ (0 < i) ∧ (i < 3)
               ∧ sample_script !! i = Some line.
Proof.
  apply (slice_chapter_between sample_script (index_labels sample_script)
           sample_plan 0 3); [vm_compute; reflexivity | vm_compute; reflexivity | lia].
Defined.

(** * Further properties *)

(** ** Label table and slices *)

Lemma index_labels_lookup (script_lines : list str) (label : str) (i : nat) :
  index_labels script_lines !! label = Some i ↔
    last_definition label script_lines = Some i.
Proof.
  unfold index_labels. rewrite index_labels_from_lookup.
  destruct (last_definition label script_lines); simpl; [done|].
  by rewrite lookup_empty.
Qed.

(** X1: every index held by the label table is a position of the script,
    and the table is empty exactly when no line of the script defines a
    label. *)
Theorem index_labels_within_script (script_lines : list str) :
  map_Forall (λ _ i, i < length script_lines) (index_labels script_lines)
  ∧ (index_labels script_lines = ∅ ↔
       ∀ j raw_line label, script_lines !! j = Some raw_line →
         ¬ defines_label raw_line label).
Proof.
  split.
  - intros label i Hi. apply index_labels_lookup, last_definition_Some in Hi
      as [(raw & Hraw & _) _]. by apply lookup_lt_Some in Hraw.
  - split.
    + intros Hempty j raw label Hj Hdef.
      assert (index_labels script_lines !! label = None) as Hnone
        by (by rewrite Hempty, lookup_empty).
      destruct (last_definition label script_lines) as [i|] eqn:E.
      * apply index_labels_lookup in E. congruence.
      * by apply (proj1 (last_definition_None _ _) E j raw).
    + intros Hnone. apply map_eq. intros label. rewrite lookup_empty.
      destruct (index_labels script_lines !! label) as [i|] eqn:E; [|done].
      apply index_labels_lookup, last_definition_Some in E as [(raw & Hraw & Hdef) _].
      by destruct (Hnone i raw label).
Qed.

(** X2: when the table of the script itself is used and the slice succeeds,
    the script is: some lines, a line defining the start label, the slice, a
    line defining the end label, the remaining lines; no line from the slice
    on defines the start label again, and no remaining line defines the end
    label. *)
Theorem slice_chapter_splits_script (script_lines : list str) (plan : ChapterPlan)
    (segment : list str) :
  slice_chapter script_lines (index_labels script_lines) plan = Ok segment →
  ∃ before start_line end_line after,
    script_lines = before ++ start_line :: segment ++ end_line :: after
    ∧ defines_label start_line (start_label plan)
    ∧ defines_label end_line (end_label plan)
    ∧ Forall (λ raw_line, ¬ defines_label raw_line (start_label plan))
        (segment ++ end_line :: after)
    ∧ Forall (λ raw_line, ¬ defines_label raw_line (end_label plan)) after.
Proof.
  unfold slice_chapter.
  destruct (index_labels script_lines !! start_label plan) as [s|] eqn:Hs; [|done].
  destruct (index_labels script_lines !! end_label plan) as [e|] eqn:He; [|done].
  destruct (e <=? s) eqn:Hle; [done|]. apply Nat.leb_gt in Hle.
  intros [= <-].
  apply index_labels_lookup, last_definition_Some in Hs as [(sl & Hsl & Hsdef) Hslast].
  apply index_labels_lookup, last_definition_Some in He as [(el & Hel & Hedef) Helast].
  set (d := drop (S s) script_lines).
  assert (d !! (e - s - 1) = Some el) as Hd.
  { unfold d. rewrite lookup_drop. rewrite <- Hel. f_equal. lia. }
  exists (take s script_lines), sl, el, (drop (S (e - s - 1)) d).
  assert (py_slice (s + 1) e script_lines = take (e - s - 1) d) as ->.
  { unfold py_slice, d. f_equal; [lia|]. f_equal. lia. }
  split; [|split; [done|split; [done|split]]].
  - rewrite (take_drop_middle d (e - s - 1) el Hd).
    symmetry. by apply take_drop_middle.
  - rewrite (take_drop_middle d (e - s - 1) el Hd).
    apply Forall_lookup. intros j raw Hj. unfold d in Hj. rewrite lookup_drop in Hj.
    apply (Hslast (S s + j)); [lia | done].
  - apply Forall_lookup. intros j raw Hj. unfold d in Hj.
    rewrite !lookup_drop in Hj. eapply Helast; [|exact Hj]. lia.
Qed.

(** Witness of X2 on the sample script. *)
Lemma slice_chapter_splits_script_witness :
  ∃ before start_line end_line after,
    sample_script =
      before ++ start_line :: [line_advchar_beato; line_good_evening]
      ++ end_line :: after
    ∧ defines_label start_line (start_label sample_plan)
    ∧ defines_label end_line (end_label sample_plan)
    ∧ Forall (λ raw_line, ¬ defines_label raw_line (start_label sample_plan))
        ([line_advchar_beato; line_good_evening] ++ end_line :: after)
    ∧ Forall (λ raw_line, ¬ defines_label raw_line (end_label sample_plan)) after.
Proof.
  apply (slice_chapter_splits_script sample_script sample_plan).
  vm_compute; reflexivity.
Defined.

(** ** find_chapter *)

Lemma find_first {A} (f : A → bool) (l : list A) (x : A) :
  List.find f l = Some x ↔
    ∃ before after, l = before ++ x :: after ∧ f x = true
                    ∧ Forall (λ y, f y = false) before.
Proof.
  induction l as [|a l IH]; simpl.
  - split; [done|]. intros (before & after & H & _). by destruct before.
  - destruct (f a) eqn:Ha.
    + split.
      * intros [= ->]. exists [], l. done.
      * intros ([|b before] & after & Hl & Hx & Hbefore).
        -- by injection Hl as -> ->.
        -- injection Hl as -> ->. apply Forall_cons in Hbefore as [? _]. congruence.
    + rewrite IH. split.
      * intros (before & after & -> & Hx & Hbefore). exists (a :: before), after.
        split; [done|]. split; [done|]. by constructor.
      * intros ([|b before] & after & Hl & Hx & Hbefore).
        -- injection Hl as -> ->. congruence.
        -- injection Hl as -> ->. apply Forall_cons in Hbefore as [_ ?]. eauto.
Qed.

Lemma find_nothing {A} (f : A → bool) (l : list A) :
  List.find f l = None ↔ Forall (λ y, f y = false) l.
Proof.
  induction l as [|a l IH]; simpl; [by split|].
  destruct (f a) eqn:Ha.
  - split; [done|]. intros [? _]%Forall_cons. congruence.
  - rewrite IH, Forall_cons. tauto.
Qed.

Lemma answers_to_test (key : str) (plan : ChapterPlan) :
  bool_decide (chapter_id plan = key) || bool_decide (start_label plan = key) = true
  ↔ answers_to key plan.
Proof.
  unfold answers_to. rewrite orb_true_iff, !bool_decide_eq_true. done.
Qed.

Lemma answers_to_test_false (key : str) (plan : ChapterPlan) :
  bool_decide (chapter_id plan = key) || bool_decide (start_label plan = key) = false
  ↔ ¬ answers_to key plan.
Proof. rewrite <- answers_to_test. by destruct (_ || _). Qed.

Lemma occurs_in_join (sep part : str) (parts : list str) :
  part ∈ parts → occurs_in part (join sep parts).
Proof.
  induction parts as [|p parts IH]; intros Hin; [by apply elem_of_nil in Hin|].
  apply elem_of_cons in Hin as [->|Hin].
  - destruct parts as [|q parts]; simpl.
    + exists [], []. by rewrite app_nil_r.
    + exists [], (sep ++ join sep (q :: parts)). done.
  - destruct (IH Hin) as (before & after & Hj).
    destruct parts as [|q parts]; [by apply elem_of_nil in Hin|].
    cbn [join]. cbn [join] in Hj. exists (p ++ sep ++ before), after.
    rewrite Hj. by rewrite <- !app_assoc.
Qed.

(** X3: [find_chapter] returns a chapter exactly when it is the first
    chapter of the plan whose identifier or start label is the key. *)
Theorem find_chapter_first_match (plan : list ChapterPlan) (key : str)
    (found : ChapterPlan) :
  find_chapter plan key = Ok found ↔
    ∃ before after,
      plan = before ++ found :: after
      ∧ answers_to key found
      ∧ Forall (λ other, ¬ answers_to key other) before.
Proof.
  unfold find_chapter.
  destruct (List.find _ plan) as [hit|] eqn:E.
  - apply find_first in E as (before & after & Hplan & Hhit & Hbefore).
    apply answers_to_test in Hhit.
    assert (Forall (λ other, ¬ answers_to key other) before) as Hnot.
    { eapply Forall_impl; [exact Hbefore|]. intros other.
      apply answers_to_test_false. }
    split.
    + intros [= <-]. eauto.
    + intros (before' & after' & Hplan' & Hfound & Hnot'). f_equal.
      assert (List.find (λ chapter, bool_decide (chapter_id chapter = key)
                || bool_decide (start_label chapter = key)) plan = Some found) as E'.
      { apply find_first. exists before', after'. split; [done|].
        split; [by apply answers_to_test|].
        eapply Forall_impl; [exact Hnot'|]. intros other.
        apply answers_to_test_false. }
      assert (List.find (λ chapter, bool_decide (chapter_id chapter = key)
                || bool_decide (start_label chapter = key)) plan = Some hit) as E''.
      { apply find_first. exists before, after. split; [done|].
        split; [by apply answers_to_test|done]. }
      congruence.
  - split; [done|]. intros (before & after & -> & Hfound & _).
    apply find_nothing in E. apply Forall_app in E as [_ [E _]%Forall_cons].
    by apply answers_to_test_false in E.
Qed.

(** X4: [find_chapter] raises exactly when no chapter answers to the key,
    and then the exception is a [KeyError] whose message holds the key and
    the identifier of every chapter of the plan. *)
Theorem find_chapter_unknown (plan : list ChapterPlan) (key : str) :
  (raises (find_chapter plan key) ↔ Forall (λ other, ¬ answers_to key other) plan)
  ∧ (∀ e, find_chapter plan key = Raise e →
       ∃ msg, e = KeyError msg ∧ occurs_in key msg
              ∧ ∀ other, other ∈ plan → occurs_in (chapter_id other) msg).
Proof.
  unfold find_chapter.
  destruct (List.find _ plan) as [hit|] eqn:E.
  - split; [|done]. split; [done|]. intros Hall.
    apply find_first in E as (before & after & -> & Hhit & _).
    apply Forall_app in Hall as [_ [Hall _]%Forall_cons].
    by apply answers_to_test in Hhit.
  - split.
    + split; [intros _|done]. apply find_nothing in E.
      eapply Forall_impl; [exact E|]. intros other. apply answers_to_test_false.
    + intros e He.
      exists (lit "Unknown chapter '" ++ key ++ lit "'. Available ids: "
              ++ join (lit ", ") (chapter_id <$> plan)).
      split; [congruence|]. split.
      * by exists (lit "Unknown chapter '"),
          (lit "'. Available ids: " ++ join (lit ", ") (chapter_id <$> plan)).
      * intros other Hin.
        destruct (occurs_in_join (lit ", ") (chapter_id other) (chapter_id <$> plan))
          as (before & after & ->).
        { by apply list_elem_of_fmap_2. }
        exists (lit "Unknown chapter '" ++ key ++ lit "'. Available ids: " ++ before),
          after.
        by rewrite <- !app_assoc.
Qed.

(** Witness of X4: the key nope against the chapters ep1 and ep2. *)
Lemma find_chapter_unknown_witness :
  ∃ msg, KeyError (lit "Unknown chapter 'nope'. Available ids: ep1, ep2") = KeyError msg
         ∧ occurs_in (lit "nope") msg
         ∧ ∀ other, other ∈ [sample_plan; second_plan] →
             occurs_in (chapter_id other) msg.
Proof.
  apply (proj2 (find_chapter_unknown [sample_plan; second_plan] (lit "nope"))).
  vm_compute; reflexivity.
Defined.

(** ** More on the cleaner *)

Lemma sub_from_literal_replaced (k : N) (repl : str) (skip : nat)
    (prev : option N) (text : str) :
  k ∉ repl → k ∉ sub_from (literal [k]) repl skip prev text.
Proof.
  intros Hrepl. revert skip prev.
  induction text as [|c rest IH]; intros skip prev; simpl.
  - apply not_elem_of_nil.
  - destruct skip as [|n]; [|done]. unfold literal at 1. simpl.
    destruct (N.eqb k c) eqn:E; simpl.
    + rewrite elem_of_app. intros [?|?]; [done|]. by apply (IH 0 (Some c)).
    + apply not_elem_of_cons. split; [|done]. by apply N.eqb_neq in E.
Qed.

Lemma sub_from_literal_same (k : N) (prev : option N) (text : str) :
  sub_from (literal [k]) [k] 0 prev text = text.
Proof.
  revert prev. induction text as [|c rest IH]; intros prev; simpl; [done|].
  unfold literal at 1. simpl. destruct (N.eqb k c) eqn:E; simpl.
  - apply N.eqb_eq in E as ->. by rewrite IH.
  - by rewrite IH.
Qed.

Lemma sub_from_literal_absent (k : N) (more new : str) (prev : option N) (text : str) :
  k ∉ text → sub_from (literal (k :: more)) new 0 prev text = text.
Proof.
  revert prev. induction text as [|c rest IH]; intros prev Hk; simpl; [done|].
  apply not_elem_of_cons in Hk as [Hc Hrest]. unfold literal at 1. simpl.
  destruct (N.eqb k c) eqn:E; [by apply N.eqb_eq in E|]. simpl. by rewrite IH.
Qed.

Lemma drop_while_fixed {A} (p : A → bool) (t : list A) :
  match t with c :: _ => p c = false | [] => True end → drop_while p t = t.
Proof. destruct t as [|c t]; simpl; [done|]. by intros ->. Qed.

Lemma drop_while_twice {A} (p : A → bool) (t : list A) :
  drop_while p (drop_while p t) = drop_while p t.
Proof. apply drop_while_fixed, drop_while_head. Qed.

Lemma drop_while_snoc_stop {A} (p : A → bool) (t : list A) (c : A) :
  p c = false → drop_while p (t ++ [c]) = drop_while p t ++ [c].
Proof.
  intros Hc. induction t as [|a t IH]; simpl; [by rewrite Hc|].
  by destruct (p a).
Qed.

Lemma rstrip_twice (t : str) : rstrip (rstrip t) = rstrip t.
Proof. unfold rstrip. by rewrite reverse_involutive, drop_while_twice. Qed.

Lemma lstrip_rstrip_fixed (t : str) : lstrip t = t → lstrip (rstrip t) = rstrip t.
Proof.
  unfold lstrip, rstrip. intros Hfixed. destruct t as [|c t]; [done|].
  simpl in Hfixed. destruct (is_space c) eqn:Hc.
  - exfalso. destruct (drop_while_suffix is_space t) as [before Ht].
    rewrite Hfixed in Ht. apply (f_equal length) in Ht.
    rewrite length_app in Ht. simpl in Ht. lia.
  - rewrite reverse_cons, drop_while_snoc_stop, reverse_app by done.
    simpl. by rewrite Hc.
Qed.

(** Trimming a trimmed text changes nothing. *)
Lemma strip_twice (t : str) : strip (strip t) = strip t.
Proof.
  unfold strip. rewrite lstrip_rstrip_fixed.
  - apply rstrip_twice.
  - apply drop_while_twice.
Qed.

Section cleaner_extras.
Context `{U : Unicode}.

Lemma after_keyword_no_caret (content : str) : Ch.caret ∉ after_keyword content.
Proof.
  unfold after_keyword, replace. apply not_elem_of_Forall.
  do 3 (apply re_sub_Forall; [by repeat constructor|]).
  apply not_elem_of_Forall, sub_from_literal_removed.
Qed.

Lemma after_keyword_no_at_sign (content : str) : Ch.at_sign ∉ after_keyword content.
Proof.
  unfold after_keyword, replace. apply not_elem_of_Forall.
  apply re_sub_Forall; [by repeat constructor|].
  apply not_elem_of_Forall, sub_from_literal_replaced.
  by intros [= ]%list_elem_of_singleton.
Qed.

(** A character absent after the first half and different from the three
    characters the second half inserts is absent from the cleaned line. *)
Lemma clean_lang_line_absent (k : N) (raw : str) :
  k ≠ Ch.newline → k ≠ Ch.space → k ≠ Ch.dquote →
  (∀ content, k ∉ after_keyword content) →
  k ∉ clean_lang_line raw.
Proof.
  intros Hn Hs Hq Hk. unfold clean_lang_line.
  destruct (startswith (lit "langen") (strip raw)); simpl; [|apply not_elem_of_nil].
  apply not_elem_of_Forall, Forall_strip, Forall_list_filter.
  apply after_hints_Forall; [done..|]. apply not_elem_of_Forall, Hk.
Qed.

(** X5: the cleaned line holds no caret and no at-sign. *)
Theorem clean_lang_line_no_markers (raw : str) :
  (Ch.caret ∉ clean_lang_line raw) ∧ (Ch.at_sign ∉ clean_lang_line raw).
Proof.
  split; (apply clean_lang_line_absent; [done..|]).
  - apply after_keyword_no_caret.
  - apply after_keyword_no_at_sign.
Qed.

(** X6: the cleaned line is trimmed (trimming it again changes nothing), and
    a line that does not begin, once trimmed, with the language keyword
    cleans to the empty string. *)
Theorem clean_lang_line_trimmed (raw : str) :
  strip (clean_lang_line raw) = clean_lang_line raw
  ∧ clean_lang_line (strip raw) = clean_lang_line raw
  ∧ (startswith (lit "langen") (strip raw) = false → clean_lang_line raw = []).
Proof.
  unfold clean_lang_line. rewrite strip_twice.
  destruct (startswith (lit "langen") (strip raw)); simpl.
  - split; [apply strip_twice|]. split; done.
  - done.
Qed.

(** X7: the step that normalises the quotes never changes the text: it runs
    right after the backslashes are removed, so the escaped quote it looks
    for cannot occur, and it replaces a quote by itself. *)
Theorem quote_step_changes_nothing (content : str) :
  replace [Ch.dquote] [Ch.dquote]
    (replace [Ch.backslash; Ch.dquote] [Ch.dquote]
       (re_sub CONTROL_CODE_PATTERN [] (after_keyword content)))
  = re_sub CONTROL_CODE_PATTERN [] (after_keyword content).
Proof.
  unfold replace at 1 2. unfold re_sub at 1 2.
  rewrite sub_from_literal_same. apply sub_from_literal_absent.
  apply not_elem_of_Forall, re_sub_Forall; [done|].
  apply not_elem_of_Forall, after_keyword_no_backslash.
Qed.
End cleaner_extras.

(** Witness of X6: a music line is not a language line. *)
Lemma clean_lang_line_trimmed_witness : @clean_lang_line ascii_runtime line_bgm = [].
Proof.
  apply (proj2 (proj2 (@clean_lang_line_trimmed ascii_runtime line_bgm))).
  vm_compute; reflexivity.
Defined.

(** ** More on the extractor *)

Lemma take_while_holds {A} (p : A → bool) (t : list A) :
  Forall (λ c, p c = true) (take_while p t).
Proof.
  induction t as [|c t IH]; simpl; [done|].
  destruct (p c) eqn:E; [by constructor | done].
Qed.

Lemma quoted_at_Some (after_quote code : str) :
  quoted_at after_quote = Some code → code ≠ [] ∧ Ch.dquote ∉ code.
Proof.
  unfold quoted_at.
  pose proof (take_while_holds (not_char Ch.dquote) after_quote) as Hrun.
  destruct (take_while (not_char Ch.dquote) after_quote) as [|c run] eqn:E; [done|].
  destruct (drop (length (c :: run)) after_quote) as [|q rest]; [done|].
  destruct (N.eqb q Ch.dquote); [|done]. intros [= <-]. split; [done|].
  apply not_elem_of_Forall. eapply Forall_impl; [exact Hrun|].
  intros x Hx ->. done.
Qed.

Lemma search_quoted_Some (text code : str) :
  search_quoted text = Some code → code ≠ [] ∧ Ch.dquote ∉ code.
Proof.
  induction text as [|c rest IH]; simpl; [done|].
  destruct (N.eqb c Ch.dquote); [|done].
  destruct (quoted_at rest) as [found|] eqn:E; [|done].
  intros [= <-]. by apply quoted_at_Some in E.
Qed.

Section extractor_extras.
Context `{U : Unicode}.
Context (speaker_map : gmap str SpeakerInfo) (keywords : gset str).

(** What a line can do, branch by branch. *)
Lemma extract_line_cases (prior : option str) (raw_line : str) :
  (skipped raw_line = true
   ∧ extract_line speaker_map keywords prior raw_line = (prior, None))
  ∨ (skipped raw_line = false
     ∧ startswith (lit "advchar") (strip raw_line) = true
     ∧ ∃ next, extract_line speaker_map keywords prior raw_line = (next, None)
           ∧ (next = prior ∨ next = None
              ∨ ∃ code, next = Some code ∧ code ≠ lit "-1"
                        ∧ search_quoted (strip raw_line) = Some code))
  ∨ (skipped raw_line = false
     ∧ startswith (lit "advchar") (strip raw_line) = false
     ∧ lower (split_space_first (strip raw_line)) ∈ keywords
     ∧ extract_line speaker_map keywords prior raw_line =
         (prior, Some (Music (lower (split_space_first (strip raw_line)))
                         (strip raw_line))))
  ∨ (skipped raw_line = false
     ∧ startswith (lit "langen") (strip raw_line) = true
     ∧ clean_lang_line (strip raw_line) ≠ []
     ∧ extract_line speaker_map keywords prior raw_line =
         (prior, Some (lang_entry speaker_map prior (clean_lang_line (strip raw_line)))))
  ∨ (skipped raw_line = false
     ∧ extract_line speaker_map keywords prior raw_line = (prior, None)).
Proof.
  unfold extract_line, skipped.
  destruct (strip raw_line) as [|c rest] eqn:Hstrip; [by left|].
  destruct (startswith [Ch.semicolon] (c :: rest)) eqn:Hsemi; [by left|].
  right. destruct (startswith (lit "advchar") (c :: rest)) eqn:Hadv.
  { left. split; [done|]. split; [done|].
    destruct (search_quoted (c :: rest)) as [code|] eqn:Hcode.
    - eexists. split; [done|]. case_bool_decide as Hsent; [by (right; left)|].
      right. right. eauto.
    - eexists. split; [done|]. by left. }
  right. case_bool_decide as Hkw; [by left|].
  right. destruct (startswith (lit "langen") (c :: rest)) eqn:Hlang; [|by right].
  destruct (clean_lang_line (c :: rest)) as [|t text] eqn:Hclean; [by right|].
  left. done.
Qed.

Lemma extract_loop_app (before after : list str) (speaker : option str)
    (entries : list entry) :
  extract_loop speaker_map keywords (before ++ after) speaker entries =
    extract_loop speaker_map keywords after
      (speaker_after speaker_map keywords before speaker)
      (extract_loop speaker_map keywords before speaker entries).
Proof.
  revert speaker entries.
  induction before as [|raw rest IH]; intros speaker entries; [done|].
  rewrite speaker_after_cons. cbn [app extract_loop].
  destruct (extract_line speaker_map keywords speaker raw) as [next emitted].
  apply IH.
Qed.

Lemma extract_loop_acc (lines : list str) (speaker : option str) (entries : list entry) :
  extract_loop speaker_map keywords lines speaker entries =
    entries ++ extract_loop speaker_map keywords lines speaker [].
Proof.
  rewrite (extract_loop_trace _ _ lines speaker entries 0).
  by rewrite (extract_loop_trace _ _ lines speaker [] 0).
Qed.

(** Skipped lines can be taken out of the input. *)
Lemma extract_loop_skipped (lines : list str) (speaker : option str)
    (entries : list entry) :
  extract_loop speaker_map keywords
    (List.filter (λ raw_line, negb (skipped raw_line)) lines) speaker entries
  = extract_loop speaker_map keywords lines speaker entries.
Proof.
  revert speaker entries.
  induction lines as [|raw rest IH]; intros speaker entries; [done|].
  cbn [List.filter]. destruct (skipped raw) eqn:Hskip; cbn [negb extract_loop].
  - destruct (extract_line_cases speaker raw)
      as [[_ ->]|[(? & _)|[(? & _)|[(? & _)|(? & _)]]]]; try congruence.
    simpl. by rewrite app_nil_r.
  - destruct (extract_line speaker_map keywords speaker raw). apply IH.
Qed.

Lemma extract_loop_length (lines : list str) (speaker : option str) :
  length (extract_loop speaker_map keywords lines speaker []) ≤ length lines.
Proof.
  revert speaker. induction lines as [|raw rest IH]; intros speaker; [done|].
  cbn [extract_loop]. destruct (extract_line speaker_map keywords speaker raw)
    as [next emitted].
  rewrite extract_loop_acc, length_app. specialize (IH next).
  destruct emitted; simpl; lia.
Qed.

(** A property of the speaker kept by every line and a property of the
    entries appended under it hold all along the loop. *)
Lemma extract_loop_invariant (all : list str) (Inv : option str → Prop)
    (P : entry → Prop) :
  (∀ speaker raw_line, raw_line ∈ all → Inv speaker →
     Inv (extract_line speaker_map keywords speaker raw_line).1) →
  (∀ speaker raw_line e, raw_line ∈ all → Inv speaker →
     (extract_line speaker_map keywords speaker raw_line).2 = Some e → P e) →
  ∀ lines speaker entries,
    (∀ raw_line, raw_line ∈ lines → raw_line ∈ all) →
    Inv speaker → Forall P entries →
    Forall P (extract_loop speaker_map keywords lines speaker entries).
Proof.
  intros Hinv Hemit. induction lines as [|raw rest IH];
    intros speaker entries Hsub Hspeaker Hentries; [done|].
  cbn [extract_loop].
  pose proof (Hinv speaker raw (Hsub raw ltac:(by left)) Hspeaker) as Hnext.
  pose proof (Hemit speaker raw) as Hone.
  destruct (extract_line speaker_map keywords speaker raw) as [next emitted].
  apply IH.
  - intros r Hr. apply Hsub. by right.
  - done.
  - apply Forall_app. split; [done|]. destruct emitted as [e|]; [|done].
    repeat constructor. apply Hone; [apply Hsub; by left | done | done].
Qed.
End extractor_extras.

Section cleaner_shape.
Context `{U : Unicode}.

Lemma clean_lang_line_strip (raw : str) :
  clean_lang_line (strip raw) = clean_lang_line raw.
Proof. unfold clean_lang_line. by rewrite strip_twice. Qed.

Lemma clean_lang_line_fixed (raw : str) :
  strip (clean_lang_line raw) = clean_lang_line raw.
Proof.
  unfold clean_lang_line. destruct (startswith (lit "langen") (strip raw)); simpl;
    [apply strip_twice | done].
Qed.

Lemma clean_lang_line_no_backslash (raw : str) : Ch.backslash ∉ clean_lang_line raw.
Proof. apply clean_lang_line_absent; [done..|]. apply after_keyword_no_backslash. Qed.

Lemma clean_lang_line_no_control (raw : str) :
  has_control (clean_lang_line raw) = false.
Proof.
  unfold clean_lang_line.
  destruct (startswith (lit "langen") (strip raw)); simpl; [|done].
  apply has_control_false, Forall_strip, list_filter_holds.
Qed.

Lemma entry_text_lang_entry speaker_map prior text :
  entry_text (lang_entry speaker_map prior text) = Some text.
Proof. by destruct prior as [[|c code]|]. Qed.
End cleaner_shape.

Section extractor_properties.
Context `{U : Unicode}.

(** X8: there are at most as many entries as lines that are neither blank
    nor comments; in particular no more entries than lines. *)
Theorem at_most_one_entry_per_line (lines : list str)
    (speaker_map : gmap str SpeakerInfo) (music_commands : option (list str)) :
  length (extract_entries lines speaker_map music_commands)
    ≤ length (List.filter (λ raw_line, negb (skipped raw_line)) lines)
  ∧ length (extract_entries lines speaker_map music_commands) ≤ length lines.
Proof.
  unfold extract_entries. split.
  - rewrite <- extract_loop_skipped. apply extract_loop_length.
  - apply extract_loop_length.
Qed.

(** X9: blank lines and comment lines can be taken out of the input
    without changing the entries. *)
Theorem skipped_lines_do_not_matter (lines : list str)
    (speaker_map : gmap str SpeakerInfo) (music_commands : option (list str)) :
  extract_entries (List.filter (λ raw_line, negb (skipped raw_line)) lines)
    speaker_map music_commands
  = extract_entries lines speaker_map music_commands.
Proof. apply extract_loop_skipped. Qed.

(** X10: the text of every Dialogue or Narration entry is the cleaned text
    of one of the input lines; it is not empty, it is trimmed, and it holds
    no backslash and no control character. *)
Theorem entry_texts_are_clean (lines : list str)
    (speaker_map : gmap str SpeakerInfo) (music_commands : option (list str)) :
  Forall (text_sound lines) (extract_entries lines speaker_map music_commands).
Proof.
  unfold extract_entries.
  apply (extract_loop_invariant _ _ lines (λ _, True)); try done.
  intros speaker raw e Hraw _ He.
  destruct (extract_line_cases speaker_map (music_keywords music_commands) speaker raw)
    as [[_ E]|[(_ & _ & next & E & _)|[(_ & _ & _ & E)|[(_ & _ & Hne & E)|[_ E]]]]];
    rewrite E in He; simpl in He; try done.
  - by injection He as <-.
  - injection He as <-. unfold text_sound. rewrite entry_text_lang_entry.
    rewrite clean_lang_line_strip in *. split; [done|].
    split; [apply clean_lang_line_fixed|].
    split; [apply clean_lang_line_no_backslash|].
    split; [apply clean_lang_line_no_control|]. eauto.
Qed.

(** Dialogue entries only name speakers quoted on speaker-change lines. *)
Lemma dialogue_sound_along (lines : list str)
    (speaker_map : gmap str SpeakerInfo) (music_commands : option (list str)) :
  Forall (dialogue_sound speaker_map lines)
    (extract_entries lines speaker_map music_commands).
Proof.
  unfold extract_entries.
  apply (extract_loop_invariant _ _ lines
           (λ speaker, ∀ code, speaker = Some code →
              valid_speaker (Some code)
              ∧ ∃ raw_line, raw_line ∈ lines
                  ∧ startswith (lit "advchar") (strip raw_line) = true
                  ∧ search_quoted (strip raw_line) = Some code)); try done.
  - intros speaker raw Hraw Hinv.
    destruct (extract_line_cases speaker_map (music_keywords music_commands) speaker raw)
      as [[_ E]|[(_ & Hadv & next & E & Hnext)|[(_ & _ & _ & E)|[(_ & _ & _ & E)|[_ E]]]]];
      rewrite E; simpl; try done.
    destruct Hnext as [->|[->|(code & -> & Hsent & Hcode)]]; [done|done|].
    intros ? [= <-]. split; [|eauto].
    destruct (search_quoted_Some _ _ Hcode). done.
  - intros speaker raw e Hraw Hinv He.
    destruct (extract_line_cases speaker_map (music_keywords music_commands) speaker raw)
      as [[_ E]|[(_ & _ & next & E & _)|[(_ & _ & _ & E)|[(_ & _ & _ & E)|[_ E]]]]];
      rewrite E in He; simpl in He; try done.
    + by injection He as <-.
    + injection He as <-. destruct speaker as [[|c code]|]; try done.
      simpl. destruct (Hinv _ eq_refl) as [Hvalid Hfrom]. done.
Qed.

(** X11: the speaker of every Dialogue entry is a code quoted on a
    speaker-change line of the input; it is not empty, holds no double quote
    and is not the sentinel; the name and the portrait of the entry are the
    non-empty attributes of the catalog entry of that code, and are absent
    when the catalog has no such entry or attribute. *)
Theorem dialogue_speakers_are_sound (lines : list str)
    (speaker_map : gmap str SpeakerInfo) (music_commands : option (list str)) :
  Forall (dialogue_sound speaker_map lines)
    (extract_entries lines speaker_map music_commands).
Proof. apply dialogue_sound_along. Qed.

(** X12: the command of every Music entry is one of the lowercased music
    commands and the lowercase form of the first space-delimited token of
    the entry's raw line, which is a trimmed input line, neither blank nor a
    comment; and without music commands there is no Music entry. *)
Theorem music_entries_are_sound (lines : list str)
    (speaker_map : gmap str SpeakerInfo) (music_commands : option (list str)) :
  Forall (music_sound (music_keywords music_commands) lines)
    (extract_entries lines speaker_map music_commands)
  ∧ Forall (λ e, is_music e = false) (extract_entries lines speaker_map None)
  ∧ Forall (λ e, is_music e = false) (extract_entries lines speaker_map (Some [])).
Proof.
  assert (∀ commands,
            Forall (music_sound (music_keywords commands) lines)
              (extract_entries lines speaker_map commands)) as Hsound.
  { intros commands. unfold extract_entries.
    apply (extract_loop_invariant _ _ lines (λ _, True)); try done.
    intros speaker raw e Hraw _ He.
    destruct (extract_line_cases speaker_map (music_keywords commands) speaker raw)
      as [[_ E]|[(_ & _ & next & E & _)|[(Hskip & _ & Hkw & E)|[(_ & _ & _ & E)|[_ E]]]]];
      rewrite E in He; simpl in He; try done.
    - injection He as <-. simpl. split; [done|]. split; [done|].
      unfold skipped in Hskip.
      destruct (strip raw) as [|c rest] eqn:Hstrip; [done|].
      split; [done|]. split; [done|]. exists raw. by rewrite Hstrip.
    - injection He as <-. by destruct speaker as [[|c code]|]. }
  split; [apply Hsound|].
  split.
  - eapply Forall_impl; [apply (Hsound None)|].
    intros [command raw| |]; simpl; [|done..]. intros [Hin _].
    by apply elem_of_empty in Hin.
  - eapply Forall_impl; [apply (Hsound (Some []))|].
    intros [command raw| |]; simpl; [|done..]. intros [Hin _].
    by apply elem_of_empty in Hin.
Qed.

(** X13: the entries of two sequences of lines put end to end are the
    entries of the first followed by what the second yields from the speaker
    the first leaves; when the first leaves no speaker, they are the entries
    of the first followed by the entries of the second. *)
Theorem entries_of_concatenation (before after : list str)
    (speaker_map : gmap str SpeakerInfo) (music_commands : option (list str)) :
  extract_entries (before ++ after) speaker_map music_commands =
    extract_entries before speaker_map music_commands
    ++ extract_loop speaker_map (music_keywords music_commands) after
         (speaker_after speaker_map (music_keywords music_commands) before None) []
  ∧ (speaker_after speaker_map (music_keywords music_commands) before None = None →
     extract_entries (before ++ after) speaker_map music_commands =
       extract_entries before speaker_map music_commands
       ++ extract_entries after speaker_map music_commands).
Proof.
  assert (extract_entries (before ++ after) speaker_map music_commands =
    extract_entries before speaker_map music_commands
    ++ extract_loop speaker_map (music_keywords music_commands) after
         (speaker_after speaker_map (music_keywords music_commands) before None) [])
    as Hgen.
  { unfold extract_entries. by rewrite extract_loop_app, extract_loop_acc. }
  split; [done|]. intros Hnone. rewrite Hgen, Hnone. done.
Qed.
End extractor_properties.

(** Witness of X13: a first part that ends on the sentinel. *)
Lemma entries_of_concatenation_witness :
  @extract_entries ascii_runtime
    ([line_advchar_beato; line_good_evening; lit "advchar " ++ quoted (lit "-1")]
     ++ [line_hello_world]) ∅ None =
    @extract_entries ascii_runtime
      [line_advchar_beato; line_good_evening; lit "advchar " ++ quoted (lit "-1")]
      ∅ None
    ++ @extract_entries ascii_runtime [line_hello_world] ∅ None.
Proof.
  apply (proj2 (@entries_of_concatenation ascii_runtime
           [line_advchar_beato; line_good_evening; lit "advchar " ++ quoted (lit "-1")]
           [line_hello_world] ∅ None)).
  vm_compute; reflexivity.
Defined.

(** ** write_output and main *)





Section main_properties.
Context `{U : Unicode}.


End main_properties.

(** ** load_plan *)

Lemma getitem_Ok (data : gmap str str) (key value : str) :
  getitem data key = Ok value ↔ data !! key = Some value.
Proof. unfold getitem. destruct (data !! key); split; congruence. Qed.

(** The first required key that is missing decides the outcome. *)
Lemma ChapterPlan_from_dict_first_missing (data : gmap str str) :
  match List.find (λ key, bool_decide (data !! key = None)) required_keys with
  | Some key => ChapterPlan_from_dict data = Raise (KeyError key)
  | None =>
    ∃ plan, ChapterPlan_from_dict data = Ok plan
            ∧ data !! lit "id" = Some (chapter_id plan)
            ∧ data !! lit "title" = Some (title plan)
            ∧ data !! lit "episode" = Some (episode plan)
            ∧ data !! lit "start_label" = Some (start_label plan)
            ∧ data !! lit "end_label" = Some (end_label plan)
  end.
Proof.
  unfold ChapterPlan_from_dict, required_keys, getitem. cbn [List.find].
  destruct (data !! lit "id") as [v1|] eqn:E1;
    [rewrite bool_decide_eq_false_2 by done | by rewrite bool_decide_eq_true_2].
  destruct (data !! lit "title") as [v2|] eqn:E2;
    [rewrite bool_decide_eq_false_2 by done | by rewrite bool_decide_eq_true_2].
  destruct (data !! lit "episode") as [v3|] eqn:E3;
    [rewrite bool_decide_eq_false_2 by done | by rewrite bool_decide_eq_true_2].
  destruct (data !! lit "start_label") as [v4|] eqn:E4;
    [rewrite bool_decide_eq_false_2 by done | by rewrite bool_decide_eq_true_2].
  destruct (data !! lit "end_label") as [v5|] eqn:E5;
    [rewrite bool_decide_eq_false_2 by done | by rewrite bool_decide_eq_true_2].
  eexists. split; [done|]. done.
Qed.

(** X17: a chapter is built exactly when the dictionary has the five
    required keys, and then each field is the value under its key; otherwise
    [KeyError] is raised for the first of the five keys, in the order id,
    title, episode, start label, end label, that the dictionary lacks. *)
Theorem ChapterPlan_from_dict_outcome (data : gmap str str) :
  match List.find (λ key, bool_decide (data !! key = None)) required_keys with
  | Some key => ChapterPlan_from_dict data = Raise (KeyError key)
  | None =>
    ∃ plan, ChapterPlan_from_dict data = Ok plan
            ∧ data !! lit "id" = Some (chapter_id plan)
            ∧ data !! lit "title" = Some (title plan)
            ∧ data !! lit "episode" = Some (episode plan)
            ∧ data !! lit "start_label" = Some (start_label plan)
            ∧ data !! lit "end_label" = Some (end_label plan)
  end.
Proof. apply ChapterPlan_from_dict_first_missing. Qed.

Lemma ChapterPlan_from_dict_raises (item : gmap str str) :
  raises (ChapterPlan_from_dict item) ↔
    ∃ key, key ∈ required_keys ∧ item !! key = None.
Proof.
  pose proof (ChapterPlan_from_dict_first_missing item) as H.
  destruct (List.find _ required_keys) as [key|] eqn:E.
  - rewrite H. split; [intros _|done].
    apply find_first in E as (before & after & Hkeys & Hkey & _).
    exists key. split.
    + rewrite Hkeys. apply elem_of_app. right. by left.
    + by apply bool_decide_eq_true in Hkey.
  - destruct H as (plan & -> & _). split; [done|].
    intros (key & Hin & Hnone). apply find_nothing in E.
    rewrite Forall_forall in E. specialize (E key Hin).
    by apply bool_decide_eq_false in E.
Qed.

Lemma chapters_from_items_outcome (items : list (gmap str str)) :
  match chapters_from_items items with
  | Ok plans => Forall2 (λ item plan, ChapterPlan_from_dict item = Ok plan) items plans
  | Raise e => ∃ item, item ∈ items ∧ ChapterPlan_from_dict item = Raise e
  end.
Proof.
  induction items as [|item more IH]; simpl; [constructor|].
  destruct (ChapterPlan_from_dict item) as [plan|e] eqn:E.
  - destruct (chapters_from_items more) as [plans|e'].
    + by constructor.
    + destruct IH as (bad & Hin & Hbad). exists bad. split; [by right | done].
  - exists item. split; [by left | done].
Qed.

(** X18: [load_plan] raises exactly when some chapter of the catalog lacks
    one of the five required keys.  Otherwise the chapters are those of the
    catalog, one for one and in order, and the speakers are those of the
    catalog, each stored under its own identifier with the name and the
    portrait found in its dictionary; a catalog without chapters or without
    speakers gives an empty list or an empty map. *)
Theorem load_plan_outcome (payload : Payload) :
  (raises (load_plan payload) ↔
     ∃ item key, item ∈ default [] (payload_chapters payload)
                 ∧ key ∈ required_keys ∧ item !! key = None)
  ∧ (∀ plans catalog, load_plan payload = Ok (plans, catalog) →
       Forall2 (λ item plan, ChapterPlan_from_dict item = Ok plan)
         (default [] (payload_chapters payload)) plans
       ∧ (∀ sid, catalog !! sid =
            SpeakerInfo_from_dict sid <$> default ∅ (payload_speakers payload) !! sid)
       ∧ map_Forall (λ sid info,
            speaker_id info = sid
            ∧ ∃ data, default ∅ (payload_speakers payload) !! sid = Some data
                      ∧ name info = data !! lit "name"
                      ∧ portrait info = data !! lit "portrait") catalog).
Proof.
  unfold load_plan.
  pose proof (chapters_from_items_outcome (default [] (payload_chapters payload))) as H.
  destruct (chapters_from_items (default [] (payload_chapters payload)))
    as [plans|e]; simpl.
  - split.
    + split; [done|]. intros (item & key & Hin & Hkey & Hnone).
      apply list_elem_of_lookup in Hin as [i Hi].
      destruct (Forall2_lookup_l _ _ _ _ _ H Hi) as (plan & _ & Hplan).
      assert (raises (ChapterPlan_from_dict item)) as Hr
        by (apply ChapterPlan_from_dict_raises; eauto).
      by rewrite Hplan in Hr.
    + intros ? catalog [= <- <-]. split; [done|].
      assert (∀ sid, map_imap (λ sid info, Some (SpeakerInfo_from_dict sid info))
                (default ∅ (payload_speakers payload)) !! sid =
              SpeakerInfo_from_dict sid <$> default ∅ (payload_speakers payload) !! sid)
        as Hlookup.
      { intros sid. rewrite map_lookup_imap.
        by destruct (default ∅ (payload_speakers payload) !! sid). }
      split; [done|]. intros sid info. rewrite Hlookup.
      destruct (default ∅ (payload_speakers payload) !! sid) as [data|]; [|done].
      simpl. intros [= <-]. split; [done|]. eauto.
  - destruct H as (item & Hin & Hitem). split; [|done]. split; [intros _|done].
    assert (raises (ChapterPlan_from_dict item)) as Hr by (by rewrite Hitem).
    apply ChapterPlan_from_dict_raises in Hr as (key & ? & ?). eauto.
Qed.

(** Witness of X18 on the sample catalog. *)
Lemma load_plan_outcome_witness :
  Forall2 (λ item plan, ChapterPlan_from_dict item = Ok plan)
    (default [] (payload_chapters sample_payload)) [sample_plan]
  ∧ (∀ sid, ({[ lit "beato" := beato_info ]} : gmap str SpeakerInfo) !! sid =
       SpeakerInfo_from_dict sid <$> default ∅ (payload_speakers sample_payload) !! sid)
  ∧ map_Forall (λ sid info,
       speaker_id info = sid
       ∧ ∃ data, default ∅ (payload_speakers sample_payload) !! sid = Some data
                 ∧ name info = data !! lit "name"
                 ∧ portrait info = data !! lit "portrait")
      ({[ lit "beato" := beato_info ]} : gmap str SpeakerInfo).
Proof.
  apply (proj2 (load_plan_outcome sample_payload)).
  vm_compute; reflexivity.
Defined.

(** ** Speakers, catalog and export together *)

Section speakers_and_export.
Context `{U : Unicode}.

Lemma speaker_after_without_change (speaker_map : gmap str SpeakerInfo)
    (keywords : gset str) (lines : list str) (speaker : option str) :
  Forall (λ raw_line, startswith (lit "advchar") (strip raw_line) = false) lines →
  speaker_after speaker_map keywords lines speaker = speaker.
Proof.
  induction 1 as [|raw rest Hraw _ IH]; [done|].
  rewrite speaker_after_cons.
  destruct (extract_line_cases speaker_map keywords speaker raw)
    as [[_ E]|[(_ & Hadv & _)|[(_ & _ & _ & E)|[(_ & _ & _ & E)|[_ E]]]]];
    [|congruence|..]; by rewrite E.
Qed.

(** X19: lines among which none is a speaker-change line leave the speaker
    as it was, and extracted from the start they give no Dialogue entry:
    every language line among them is narration. *)
Theorem no_speaker_change_no_dialogue (lines : list str)
    (speaker_map : gmap str SpeakerInfo) (music_commands : option (list str))
    (speaker : option str) :
  Forall (λ raw_line, startswith (lit "advchar") (strip raw_line) = false) lines →
  speaker_after speaker_map (music_keywords music_commands) lines speaker = speaker
  ∧ Forall (λ e, is_dialogue e = false)
      (extract_entries lines speaker_map music_commands).
Proof.
  intros Hlines. split; [by apply speaker_after_without_change|].
  unfold extract_entries.
  apply (extract_loop_invariant _ _ lines (λ speaker, speaker = None)); try done.
  - intros prior raw Hraw ->. rewrite Forall_forall in Hlines.
    destruct (extract_line_cases speaker_map (music_keywords music_commands) None raw)
      as [[_ E]|[(_ & Hadv & _)|[(_ & _ & _ & E)|[(_ & _ & _ & E)|[_ E]]]]];
      [|rewrite (Hlines raw Hraw) in Hadv; done|..]; by rewrite E.
  - intros prior raw e Hraw -> He.
    destruct (extract_line_cases speaker_map (music_keywords music_commands) None raw)
      as [[_ E]|[(_ & _ & next & E & _)|[(_ & _ & _ & E)|[(_ & _ & _ & E)|[_ E]]]]];
      rewrite E in He; simpl in He; try done; by injection He as <-.
Qed.

End speakers_and_export.

(** Witness of X19: a music line and a language line. *)
Lemma no_speaker_change_no_dialogue_witness :
  @speaker_after ascii_runtime ∅ (@music_keywords ascii_runtime None)
     [line_bgm; line_hello_world] (Some (lit "beato")) = Some (lit "beato")
  ∧ Forall (λ e, is_dialogue e = false)
      (@extract_entries ascii_runtime [line_bgm; line_hello_world] ∅ None).
Proof.
  apply (@no_speaker_change_no_dialogue ascii_runtime [line_bgm; line_hello_world]
           ∅ None (Some (lit "beato"))).
  repeat constructor; vm_compute; reflexivity.
Defined.


(** ** Length of the cleaned line *)

Lemma take_while_length {A} (p : A → bool) (t : list A) :
  length (take_while p t) ≤ length t.
Proof. induction t as [|c t IH]; simpl; [done|]. destruct (p c); simpl; lia. Qed.

Lemma drop_while_length {A} (p : A → bool) (t : list A) :
  length (drop_while p t) ≤ length t.
Proof.
  destruct (drop_while_suffix p t) as [before Ht]. rewrite Ht at 2.
  rewrite length_app. lia.
Qed.

Lemma strip_length (t : str) : length (strip t) ≤ length t.
Proof.
  destruct (strip_segment t) as (before & after & Ht). rewrite Ht at 2.
  rewrite !length_app. lia.
Qed.

Lemma list_filter_length {A} (f : A → bool) (t : list A) :
  length (List.filter f t) ≤ length t.
Proof. induction t as [|c t IH]; simpl; [done|]. destruct (f c); simpl; lia. Qed.

Lemma startswith_length (prefix t : str) :
  startswith prefix t = true → length prefix ≤ length t.
Proof. intros [rest ->]%startswith_inv. rewrite length_app. lia. Qed.

(** A substitution does not lengthen the text when every replacement is at
    most as long as the match it replaces. *)
Lemma sub_from_length (m : matcher) (repl : str) :
  (∀ prev text n, m prev text = Some (S n) →
     repl = [] ∨ (length repl ≤ S n ∧ S n ≤ length text)) →
  ∀ text skip prev, length (sub_from m repl skip prev text) ≤ length text - skip.
Proof.
  intros Hm. induction text as [|c rest IH]; intros skip prev; [simpl; lia|].
  cbn [sub_from]. destruct skip as [|k]; [|apply IH].
  destruct (m prev (c :: rest)) as [[|n]|] eqn:E.
  - specialize (IH 0 (Some c)). simpl in *. lia.
  - specialize (IH n (Some c)). rewrite length_app.
    destruct (Hm _ _ _ E) as [->|[? ?]]; simpl in *; lia.
  - specialize (IH 0 (Some c)). simpl in *. lia.
Qed.

Lemma re_sub_length (m : matcher) (repl text : str) :
  (∀ prev text n, m prev text = Some (S n) →
     repl = [] ∨ (length repl ≤ S n ∧ S n ≤ length text)) →
  length (re_sub m repl text) ≤ length text.
Proof.
  intros Hm. unfold re_sub. pose proof (sub_from_length m repl Hm text 0 None). lia.
Qed.

Lemma replace_length (old new text : str) :
  length new ≤ length old → length (replace old new text) ≤ length text.
Proof.
  intros Hlen. apply re_sub_length. intros prev t n. unfold literal.
  destruct (startswith old t) eqn:E; [|done]. intros [= Hn]. right.
  apply startswith_length in E. lia.
Qed.

Section cleaner_length.
Context `{U : Unicode}.

Lemma after_keyword_length (content : str) :
  length (after_keyword content) ≤ length content - length (lit "langen").
Proof.
  unfold after_keyword.
  etrans; [apply replace_length; simpl; lia|].
  etrans; [apply replace_length; simpl; lia|].
  etrans; [apply replace_length; simpl; lia|].
  etrans; [apply replace_length; simpl; lia|].
  etrans.
  { instantiate (1 := length (lstrip_chars [Ch.colon; Ch.space]
                         (re_sub VOICE_TAG_PATTERN []
                            (drop (length (lit "langen")) content)))).
    destruct (startswith [Ch.caret] _); [rewrite length_drop; lia | done]. }
  etrans; [apply drop_while_length|].
  etrans; [apply re_sub_length; intros; by left|].
  by rewrite length_drop.
Qed.

Lemma after_hints_length (content : str) :
  length (after_hints content) ≤ length content.
Proof.
  unfold after_hints.
  etrans.
  { apply re_sub_length. intros prev t n. unfold newline_run_pattern.
    destruct (3 <=? length (take_while (is_char Ch.newline) t)) eqn:E; [|done].
    intros [= Hn]. right. apply Nat.leb_le in E.
    pose proof (take_while_length (is_char Ch.newline) t). simpl. lia. }
  etrans; [apply re_sub_length; intros; by left|].
  etrans.
  { apply re_sub_length. intros prev t n. unfold WHITESPACE_RUN_PATTERN.
    destruct (2 <=? length (take_while blank t)) eqn:E; [|done].
    intros [= Hn]. right. apply Nat.leb_le in E.
    pose proof (take_while_length blank t). simpl. lia. }
  etrans; [apply replace_length; simpl; lia|].
  etrans; [apply replace_length; simpl; lia|].
  apply re_sub_length; intros; by left.
Qed.

(** X21: the cleaned line is never longer than the input line without its
    keyword: every step removes characters or replaces a match by something
    no longer. *)
Theorem clean_lang_line_length (raw : str) :
  length (clean_lang_line raw) ≤ length raw - length (lit "langen").
Proof.
  unfold clean_lang_line.
  destruct (startswith (lit "langen") (strip raw)); simpl negb; cbv iota;
    [|simpl; lia].
  etrans; [apply strip_length|].
  etrans; [apply list_filter_length|].
  etrans; [apply after_hints_length|].
  etrans; [apply after_keyword_length|].
  pose proof (strip_length raw). lia.
Qed.
End cleaner_length.
